(** * The initgroups lookup of the SSSD memory-cache client

    A shallow embedding of [src/sss_client/nss_mc_initgr.c]: the two functions
    [sss_nss_mc_parse_result] and [sss_nss_mc_initgroups_dyn], over an explicit
    model of the mapped data table, of the caller's growable group array and
    of the reader count of the cache context.

    Conventions.
    - Addresses and byte offsets are mathematical integers ([Z]).
    - [long int] is the 64-bit type of LP64 Linux; its arithmetic is written
      with [long_int], the two's-complement wrap.  [size_t] is 64 bits wide.
    - A run either returns ([Ret]), reads outside the mapped data table
      ([BadRead]), stores outside the allocated group array ([BadWrite]), or is
      still walking the collision chain when its fuel is used up ([Spin]). *)

From stdpp Require Import base numbers list.
From Stdlib Require String.
Import String.StringSyntax.
Delimit Scope string_scope with string.

Open Scope Z_scope.

(** ** Machine integers *)

Definition long_int (z : Z) : Z := (z + 2 ^ 63) mod 2 ^ 64 - 2 ^ 63.
Definition size_t (z : Z) : Z := z mod 2 ^ 64.

(** sizeof( gid_t ) *)
Definition sizeof_gid : Z := 4.

(** ** errno values (Linux errno.h) and the statuses of the interface *)

Definition EOK : Z := 0.
Definition ENOENT : Z := 2.
Definition ENOMEM : Z := 12.
Definition EINVAL : Z := 22.

Definition Success : Z := EOK.
Definition NotFound : Z := ENOENT.
Definition Expired : Z := EINVAL.
Definition AllocationFailure : Z := ENOMEM.

(** ** Outcome of a run *)

Inductive exec (A : Type) : Type :=
| Ret (a : A)
| BadRead (addr : Z)
| BadWrite (idx : Z)
| Spin.

Arguments Ret {A} a.
Arguments BadRead {A} addr.
Arguments BadWrite {A} idx.
Arguments Spin {A}.

Definition bind {A B : Type} (m : exec A) (k : A -> exec B) : exec B :=
  match m with
  | Ret a => k a
  | BadRead addr => BadRead addr
  | BadWrite idx => BadWrite idx
  | Spin => Spin
  end.

Notation "'let*' x ':=' m 'in' k" := (bind m (fun x => k))
  (at level 10, x pattern, m at level 100, k at level 200, only parsing).

(** ** The cache: records, context, mapped bytes *)

(** The initgroups payload header, [struct sss_mc_initgr_data].
    Modelled from the spec: the declaration (mmap_cache.h) is not among the
    sources; the spec's Record gives [key_offset] (here [data_name], the
    source's [data->name]), [payload_count] ([data_members], the source's
    32-bit [data->members]) and [payload_offset] ([data_gids], the offset of
    the array member [gids] from the start of the struct). *)
Record sss_mc_initgr_data : Type := {
  data_name : Z;
  data_members : Z;
  data_gids : Z
}.

(** A record as handed out by [sss_nss_mc_get_record], [struct sss_mc_rec].
    Modelled from the spec: [rec_hash1] is the [primary_hash], [rec_next] the
    [next_same_hash] link, [rec_expire] the [expire_time]; [rec_data] is the
    address of [rec->data] and [rec_initgr] the header found there. *)
Record sss_mc_rec : Type := {
  rec_hash1 : Z;
  rec_next : Z;
  rec_expire : Z;
  rec_data : Z;
  rec_initgr : sss_mc_initgr_data
}.

(** The cache context [initgr_mc_ctx] ([struct sss_cli_mc_ctx]), together with
    what the helpers of nss_mc_common.c compute from it; those helpers are not
    among the sources and are taken as they are here:
    - [get_ctx_ret] is what attaching the context returns ([0] on success);
    - [dt_byte] gives the byte mapped at an offset of the data table;
    - [mc_hash] is [sss_nss_mc_hash], on the name bytes and a length;
    - [mc_record] is [sss_nss_mc_get_record]: an errno (never [0]) or the
      record at a slot. *)
Record sss_cli_mc_ctx : Type := {
  get_ctx_ret : Z;
  data_table : Z;
  dt_size : Z;
  dt_byte : Z -> Z;
  hash_table : Z -> Z;
  active_threads : Z;
  mc_hash : list Z -> Z -> Z;
  mc_record : Z -> positive + sss_mc_rec
}.

Definition with_active_threads (ctx : sss_cli_mc_ctx) (n : Z) : sss_cli_mc_ctx :=
  {| get_ctx_ret := get_ctx_ret ctx;
     data_table := data_table ctx;
     dt_size := dt_size ctx;
     dt_byte := dt_byte ctx;
     hash_table := hash_table ctx;
     active_threads := n;
     mc_hash := mc_hash ctx;
     mc_record := mc_record ctx |}.

(** Modelled from the spec: [sss_nss_mc_get_ctx] (nss_mc_common.c) is not among
    the sources.  "Every public entry point acquires the Cache Handle's
    reader-count before beginning a lookup": on success the count is one
    higher; a failed attach leaves it as it was. *)
Definition sss_nss_mc_get_ctx (ctx : sss_cli_mc_ctx) : Z * sss_cli_mc_ctx :=
  if get_ctx_ret ctx =? 0
  then (0, with_active_threads ctx (active_threads ctx + 1))
  else (get_ctx_ret ctx, ctx).

(** [__sync_sub_and_fetch(&initgr_mc_ctx.active_threads, 1)] *)
Definition sync_sub_and_fetch (ctx : sss_cli_mc_ctx) : sss_cli_mc_ctx :=
  with_active_threads ctx (active_threads ctx - 1).

(** Modelled from the spec: the macro [MC_SLOT_WITHIN_BOUNDS] (mmap_cache.h) is
    not among the sources.  "A Slot Offset is only dereferenced if
    [0 <= offset < extent]". *)
Definition MC_SLOT_WITHIN_BOUNDS (slot dt_size : Z) : bool :=
  (0 <=? slot) && (slot <? dt_size).

(** Modelled from the spec: [sss_nss_mc_next_slot_with_hash] (nss_mc_common.c)
    is not among the sources.  "advance [slot = record.next_same_hash]". *)
Definition sss_nss_mc_next_slot_with_hash (rec : sss_mc_rec) (hash : Z) : Z :=
  rec_next rec.

(** [max_addr = initgr_mc_ctx.data_table + initgr_mc_ctx.dt_size] *)
Definition max_addr (ctx : sss_cli_mc_ctx) : Z := data_table ctx + dt_size ctx.

(** Reading one byte through a pointer: defined only inside the mapping. *)
Definition read_byte (ctx : sss_cli_mc_ctx) (addr : Z) : exec Z :=
  if (data_table ctx <=? addr) && (addr <? max_addr ctx)
  then Ret (dt_byte ctx (addr - data_table ctx))
  else BadRead addr.

(** Modelled from the spec: [SAFEALIGN_COPY_UINT32] (util_safealign.h) is not
    among the sources; it is the "alignment-safe decode" of a 32-bit value,
    a byte-wise copy of four bytes, read here in little-endian host order. *)
Definition SAFEALIGN_COPY_UINT32 (ctx : sss_cli_mc_ctx) (src : Z) : exec Z :=
  let* b0 := read_byte ctx src in
  let* b1 := read_byte ctx (src + 1) in
  let* b2 := read_byte ctx (src + 2) in
  let* b3 := read_byte ctx (src + 3) in
  Ret (b0 + 2 ^ 8 * b1 + 2 ^ 16 * b2 + 2 ^ 24 * b3).

(** [strcmp(name, rec_name) == 0], reading [rec_name] byte by byte from the
    mapping.  [name] lists the bytes of the C string before its terminator. *)
Fixpoint strcmp_eq (ctx : sss_cli_mc_ctx) (name : list Z) (rec_name : Z) : exec bool :=
  match name with
  | [] => let* b := read_byte ctx rec_name in Ret (b =? 0)
  | c :: name' =>
      let* b := read_byte ctx rec_name in
      if c =? 0 then Ret (b =? 0)
      else if b =? c then strcmp_eq ctx name' (rec_name + 1)
      else Ret false
  end.

(** ** The caller's group array *)

(** [start], [size] and [groups] of the interface: the cursor, the capacity the
    caller believes in, and the allocated block itself. *)
Record result_buffer : Type := {
  start : Z;
  size : Z;
  groups : list Z
}.

(** The C library as the lookup sees it: the clock, whether [realloc] of a
    given byte count succeeds, and the indeterminate contents of newly
    acquired entries. *)
Record libc : Type := {
  time_now : Z;
  realloc_ok : Z -> bool;
  heap_junk : nat -> Z
}.

(** [realloc(block, bytes)]: the block resized to [bytes / 4] entries, the
    common prefix kept, or [None] for a null result (old block untouched). *)
Definition realloc (env : libc) (block : list Z) (bytes : Z) : option (list Z) :=
  if realloc_ok env bytes then
    let n := Z.to_nat (bytes / sizeof_gid) in
    Some (take n block ++ map (heap_junk env) (seq (length block) (n - length block)))
  else None.

(** the store [groups[start] = v] followed by [start += 1] (line 79-80) *)
Definition store_gid (buf : result_buffer) (v : Z) : exec result_buffer :=
  if (0 <=? start buf) && (start buf <? Z.of_nat (length (groups buf)))
  then Ret {| start := long_int (start buf + 1);
              size := size buf;
              groups := <[Z.to_nat (start buf) := v]> (groups buf) |}
  else BadWrite (start buf).

(** The copy loop of [sss_nss_mc_parse_result], lines 78-81: [n] iterations
    are left and the loop counter is [i]. *)
Fixpoint copy_gids (ctx : sss_cli_mc_ctx) (gids : Z) (n : nat) (i : Z)
    (buf : result_buffer) : exec result_buffer :=
  match n with
  | O => Ret buf
  | S n' =>
      let* v := SAFEALIGN_COPY_UINT32 ctx (gids + sizeof_gid * i) in
      let* buf' := store_gid buf v in
      copy_gids ctx gids n' (i + 1) buf'
  end.

(** Lines 64-68: the requested capacity and the number of entries to copy. *)
Definition grow_request (buf : result_buffer) (gid_count limit : Z) : Z * Z :=
  let newsize := long_int (size buf + gid_count) in
  if (0 <? limit) && (limit <? newsize)
  then (limit, long_int (limit - start buf))
  else (newsize, gid_count).

(** [sss_nss_mc_parse_result], lines 38-84. *)
Definition sss_nss_mc_parse_result (env : libc) (ctx : sss_cli_mc_ctx)
    (rec : sss_mc_rec) (buf : result_buffer) (limit : Z) : exec (Z * result_buffer) :=
  let expire := rec_expire rec in
  if expire <? time_now env then Ret (EINVAL, buf)
  else
    let data := rec_initgr rec in
    let gids := rec_data rec + data_gids data in
    let gid_count := data_members data in
    if long_int (size buf - start buf) <? gid_count then
      let '(newsize, max_ret) := grow_request buf gid_count limit in
      match realloc env (groups buf) (size_t (newsize * sizeof_gid)) with
      | None => Ret (ENOMEM, buf)
      | Some newgroups =>
          let buf1 := {| start := start buf; size := newsize; groups := newgroups |} in
          let* buf2 := copy_gids ctx gids (Z.to_nat max_ret) 0 buf1 in
          Ret (0, buf2)
      end
    else
      let* buf2 := copy_gids ctx gids (Z.to_nat gid_count) 0 buf in
      Ret (0, buf2).

(** ** The chain walk and the entry point *)

(** How the [while] loop of lines 113-146 is left: by [goto done] with a
    status, or through its condition or its [break], with the slot and the
    record then held. *)
Inductive walk_end : Type :=
| GotoDone (ret : Z)
| LoopExit (slot : Z) (rec : option sss_mc_rec).

(** The integrity check of lines 134-135, [true] when the record is refused. *)
Definition integrity_violation (ctx : sss_cli_mc_ctx) (rec : sss_mc_rec)
    (name_len : Z) : bool :=
  let data := rec_initgr rec in
  (rec_data rec + data_gids data >? max_addr ctx)
  || (rec_data rec + data_name data + name_len >? max_addr ctx).

(** The loop of lines 113-146, one iteration per unit of fuel. *)
Fixpoint chain_walk (fuel : nat) (ctx : sss_cli_mc_ctx) (name : list Z)
    (name_len hash slot : Z) (rec : option sss_mc_rec) : exec walk_end :=
  if negb (MC_SLOT_WITHIN_BOUNDS slot (dt_size ctx)) then Ret (LoopExit slot rec)
  else
    match fuel with
    | O => Spin
    | S fuel' =>
        match mc_record ctx slot with
        | inl err => Ret (GotoDone (Z.pos err))
        | inr r =>
            if negb (hash =? rec_hash1 r) then
              chain_walk fuel' ctx name name_len hash
                (sss_nss_mc_next_slot_with_hash r hash) (Some r)
            else if integrity_violation ctx r name_len then Ret (GotoDone ENOENT)
            else
              let* same := strcmp_eq ctx name (rec_data r + data_name (rec_initgr r)) in
              if same then Ret (LoopExit slot (Some r))
              else
                chain_walk fuel' ctx name name_len hash
                  (sss_nss_mc_next_slot_with_hash r hash) (Some r)
        end
    end.

(** Lines 103-158, entered once the context is held: the result is the status
    and the context and group array as the call leaves them. *)
Definition lookup_body (fuel : nat) (env : libc) (ctx : sss_cli_mc_ctx)
    (name : list Z) (name_len : Z) (buf : result_buffer) (limit : Z)
    : exec (Z * sss_cli_mc_ctx * result_buffer) :=
  let hash := mc_hash ctx name (name_len + 1) in
  let slot := hash_table ctx hash in
  let* w := chain_walk fuel ctx name name_len hash slot None in
  let* (ret, buf') :=
    match w with
    | GotoDone ret => Ret (ret, buf)
    | LoopExit slot' rec =>
        if negb (MC_SLOT_WITHIN_BOUNDS slot' (dt_size ctx)) then Ret (ENOENT, buf)
        else
          match rec with
          | Some r => sss_nss_mc_parse_result env ctx r buf limit
          | None => BadRead 0 (* a null [rec]; the loop never leaves it so *)
          end
    end in
  Ret (ret, sync_sub_and_fetch ctx, buf').

(** [sss_nss_mc_initgroups_dyn], lines 86-159. *)
Definition sss_nss_mc_initgroups_dyn (fuel : nat) (env : libc) (ctx : sss_cli_mc_ctx)
    (name : list Z) (name_len : Z) (group : Z) (buf : result_buffer) (limit : Z)
    : exec (Z * sss_cli_mc_ctx * result_buffer) :=
  let '(ret, ctx1) := sss_nss_mc_get_ctx ctx in
  if negb (ret =? 0) then Ret (ret, ctx1, buf)
  else lookup_body fuel env ctx1 name name_len buf limit.

(** ** Vocabulary of the statements *)

(** Reading [n] consecutive group identifiers of the array at [gids], from
    index [i] on, the way the copy loop reads them. *)
Fixpoint read_gids (ctx : sss_cli_mc_ctx) (gids : Z) (n : nat) (i : Z) : exec (list Z) :=
  match n with
  | O => Ret []
  | S n' =>
      let* v := SAFEALIGN_COPY_UINT32 ctx (gids + sizeof_gid * i) in
      let* vs := read_gids ctx gids n' (i + 1) in
      Ret (v :: vs)
  end.

(** Address of the array of group identifiers of a record, [data->gids]. *)
Definition gids_addr (rec : sss_mc_rec) : Z :=
  rec_data rec + data_gids (rec_initgr rec).

(** The payload of a record: its [data_members] group identifiers. *)
Definition payload (ctx : sss_cli_mc_ctx) (rec : sss_mc_rec) : exec (list Z) :=
  read_gids ctx (gids_addr rec) (Z.to_nat (data_members (rec_initgr rec))) 0.

(** End addresses of the payload and of the key of a record, as the data model
    states them. *)
Definition payload_end (rec : sss_mc_rec) : Z :=
  gids_addr rec + data_members (rec_initgr rec) * sizeof_gid.

Definition key_end (rec : sss_mc_rec) (name_len : Z) : Z :=
  rec_data rec + data_name (rec_initgr rec) + name_len.

(** The hash of the query and the slot the walk starts from (lines 107-108). *)
Definition name_hash (ctx : sss_cli_mc_ctx) (name : list Z) (name_len : Z) : Z :=
  mc_hash ctx name (name_len + 1).

Definition first_slot (ctx : sss_cli_mc_ctx) (name : list Z) (name_len : Z) : Z :=
  hash_table ctx (name_hash ctx name name_len).

(** One iteration of the loop at [slot] that ends by moving on to the next
    slot of the chain (lines 126-127 or 145): the record passed over. *)
Definition passed_over (ctx : sss_cli_mc_ctx) (name : list Z) (name_len hash slot : Z)
    : option sss_mc_rec :=
  if MC_SLOT_WITHIN_BOUNDS slot (dt_size ctx) then
    match mc_record ctx slot with
    | inl _ => None
    | inr r =>
        if negb (hash =? rec_hash1 r) then Some r
        else if integrity_violation ctx r name_len then None
        else
          match strcmp_eq ctx name (rec_data r + data_name (rec_initgr r)) with
          | Ret false => Some r
          | _ => None
          end
    end
  else None.

(** The slot and the record held after [n] such iterations from [slot]. *)
Fixpoint follow (n : nat) (ctx : sss_cli_mc_ctx) (name : list Z) (name_len hash slot : Z)
    (rec : option sss_mc_rec) : option (Z * option sss_mc_rec) :=
  match n with
  | O => Some (slot, rec)
  | S n' =>
      match passed_over ctx name name_len hash slot with
      | Some r =>
          follow n' ctx name name_len hash (sss_nss_mc_next_slot_with_hash r hash) (Some r)
      | None => None
      end
  end.

(** The walk of a lookup: from the first slot of the query, no record held. *)
Definition first_walk (fuel : nat) (ctx : sss_cli_mc_ctx) (name : list Z)
    (name_len : Z) : exec walk_end :=
  chain_walk fuel ctx name name_len (name_hash ctx name name_len)
    (first_slot ctx name name_len) None.

(** The record the walk stops at with a name match, if it does. *)
Definition lookup_record (fuel : nat) (ctx : sss_cli_mc_ctx) (name : list Z)
    (name_len : Z) : option sss_mc_rec :=
  match first_walk fuel ctx name name_len with
  | Ret (LoopExit slot (Some r)) =>
      if MC_SLOT_WITHIN_BOUNDS slot (dt_size ctx) then Some r else None
  | _ => None
  end.

(** A group array the caller may pass: the cursor within the capacity, the
    capacity that of the block, and far from the range of [long int]. *)
Definition buffer_wf (buf : result_buffer) : Prop :=
  0 <= start buf <= size buf
  /\ size buf = Z.of_nat (length (groups buf))
  /\ size buf < 2 ^ 60.

(** [data->members] is a [uint32_t]. *)
Definition members_wf (rec : sss_mc_rec) : Prop :=
  0 <= data_members (rec_initgr rec) < 2 ^ 32.

(** ** Concrete arenas *)

(** A data table given by its bytes, mapped at address [4096]. *)
Definition byte_of (bytes : list Z) (off : Z) : Z :=
  if off <? 0 then 0 else default 0 (bytes !! Z.to_nat off).

Definition le32 (v : Z) : list Z :=
  [v mod 256; (v / 256) mod 256; (v / 65536) mod 256; (v / 16777216) mod 256].

Definition zeros (n : nat) : list Z := replicate n 0.

(** A toy hash standing for [sss_nss_mc_hash]: the sum of the characters and of
    the length, modulo 7. *)
Definition toy_hash (name : list Z) (len : Z) : Z :=
  (foldr Z.add 0 name + len) mod 7.

Definition MC_INVALID_VAL : Z := 2 ^ 32 - 1.

Definition ann : list Z := [97; 110; 110].
Definition bob : list Z := [98; 111; 98].

(** The index of the toy arenas: the hash of "ann" leads to slot 0, every
    other entry is invalid. *)
Definition toy_hash_table (h : Z) : Z :=
  if h =? toy_hash ann 4 then 0 else MC_INVALID_VAL.

Definition toy_ctx (bytes : list Z) (records : Z -> positive + sss_mc_rec)
    : sss_cli_mc_ctx :=
  {| get_ctx_ret := 0;
     data_table := 4096;
     dt_size := Z.of_nat (length bytes);
     dt_byte := byte_of bytes;
     hash_table := toy_hash_table;
     active_threads := 0;
     mc_hash := toy_hash;
     mc_record := records |}.

(** A record of a toy arena in the slot at offset [slot]: a 32-byte header,
    then the payload header (8 bytes), the group identifiers and the name. *)
Definition toy_rec (slot hash next expire members : Z) : sss_mc_rec :=
  {| rec_hash1 := hash;
     rec_next := next;
     rec_expire := expire;
     rec_data := 4096 + slot + 32;
     rec_initgr := {| data_name := 8 + 4 * members;
                      data_members := members;
                      data_gids := 8 |} |}.

Definition toy_bytes (ids : list Z) (name : list Z) : list Z :=
  zeros 40 ++ concat (map le32 ids) ++ name ++ [0].

(** Arena with one record: "ann" in groups 1000, 1001, 1002, valid until
    time 500. *)
Definition ann3_rec : sss_mc_rec := toy_rec 0 (toy_hash ann 4) MC_INVALID_VAL 500 3.

Definition ann3_ctx : sss_cli_mc_ctx :=
  toy_ctx (toy_bytes [1000; 1001; 1002] ann ++ zeros 24)
    (fun slot => if slot =? 0 then inr ann3_rec else inl 2%positive).

(** Arena with one record: "ann" in groups 2000 .. 2004, valid until time
    500; the table goes on for 56 bytes after the name. *)
Definition ann5_rec : sss_mc_rec := toy_rec 0 (toy_hash ann 4) MC_INVALID_VAL 500 5.

Definition ann5_ctx : sss_cli_mc_ctx :=
  toy_ctx (toy_bytes [2000; 2001; 2002; 2003; 2004] ann ++ zeros 56)
    (fun slot => if slot =? 0 then inr ann5_rec else inl 2%positive).

(** Arena of 64 bytes whose only record says it has five group identifiers
    from byte 48 on: the name and the start of the array lie inside the
    table, the last identifier would lie in bytes 64 .. 67. *)
Definition torn_rec : sss_mc_rec :=
  {| rec_hash1 := toy_hash ann 4;
     rec_next := MC_INVALID_VAL;
     rec_expire := 500;
     rec_data := 4096 + 32;
     rec_initgr := {| data_name := 8; data_members := 5; data_gids := 16 |} |}.

Definition torn_ctx : sss_cli_mc_ctx :=
  toy_ctx (zeros 40 ++ ann ++ [0] ++ zeros 4
             ++ concat (map le32 [3000; 3001; 3002; 3003]))
    (fun slot => if slot =? 0 then inr torn_rec else inl 2%positive).

(** Arena with a chain of two records under the hash of "ann": the first, in
    slot 0, points its name far outside the table; the second, in slot 60, is
    a live record of "ann" in groups 1000, 1001, 1002. *)
Definition stray_rec : sss_mc_rec :=
  {| rec_hash1 := toy_hash ann 4;
     rec_next := 60;
     rec_expire := 500;
     rec_data := 4096 + 32;
     rec_initgr := {| data_name := 70000; data_members := 3; data_gids := 8 |} |}.

Definition second_rec : sss_mc_rec := toy_rec 60 (toy_hash ann 4) MC_INVALID_VAL 500 3.

Definition chain2_ctx : sss_cli_mc_ctx :=
  toy_ctx (zeros 60 ++ toy_bytes [1000; 1001; 1002] ann ++ zeros 4)
    (fun slot => if slot =? 0 then inr stray_rec
                 else if slot =? 60 then inr second_rec
                 else inl 2%positive).

(** A C library whose clock shows [now] and whose [realloc] succeeds up to
    [room] bytes; fresh entries hold [-1]. *)
Definition toy_libc (now room : Z) : libc :=
  {| time_now := now;
     realloc_ok := fun bytes => bytes <=? room;
     heap_junk := fun _ => -1 |}.

Definition buffer_of (start : Z) (groups : list Z) : result_buffer :=
  {| start := start; size := Z.of_nat (length groups); groups := groups |}.

(** Arena whose only record stores "ann" in its last three bytes: the table
    ends where the terminator of the name would be. *)
Definition edge_rec : sss_mc_rec := toy_rec 0 (toy_hash ann 4) MC_INVALID_VAL 500 3.

Definition edge_ctx : sss_cli_mc_ctx :=
  toy_ctx (zeros 40 ++ concat (map le32 [1000; 1001; 1002]) ++ ann)
    (fun slot => if slot =? 0 then inr edge_rec else inl 2%positive).

(** The clock shows 100 and [realloc] succeeds up to 4096 bytes. *)
Definition fair_libc : libc := toy_libc 100 4096.

(** ** Further vocabulary and arenas *)

(** A record laid out inside the mapped table for a query of [name_len]
    characters: the stored name up to and including the position of its
    terminator, and the whole array of group identifiers. *)
Definition record_inside (ctx : sss_cli_mc_ctx) (name_len : Z) (r : sss_mc_rec)
    : Prop :=
  data_table ctx <= rec_data r + data_name (rec_initgr r)
  /\ key_end r name_len < max_addr ctx
  /\ data_table ctx <= gids_addr r
  /\ payload_end r <= max_addr ctx
  /\ members_wf r.

(** "nna" has the toy hash of "ann". *)
Definition nna : list Z := [110; 110; 97].

(** Arena with a chain of two records under the hash of "ann": "nna" (groups
    7000, 7001) in slot 0, then "ann" (groups 1000, 1001, 1002) in slot 60. *)
Definition nna_rec : sss_mc_rec := toy_rec 0 (toy_hash ann 4) 60 500 2.

Definition collide_ctx : sss_cli_mc_ctx :=
  toy_ctx (toy_bytes [7000; 7001] nna ++ zeros 8
             ++ toy_bytes [1000; 1001; 1002] ann ++ zeros 4)
    (fun slot => if slot =? 0 then inr nna_rec
                 else if slot =? 60 then inr second_rec
                 else inl 2%positive).

(** The same arena with the record in slot 60 not retrievable: the helper
    fails there with errno 5. *)
Definition eio_ctx : sss_cli_mc_ctx :=
  toy_ctx (toy_bytes [7000; 7001] nna ++ zeros 8
             ++ toy_bytes [1000; 1001; 1002] ann ++ zeros 4)
    (fun slot => if slot =? 0 then inr nna_rec else inl 5%positive).

(** Arena whose record in slot 0 is "nna" under the hash of "ann" and links
    to itself. *)
Definition loop_rec : sss_mc_rec := toy_rec 0 (toy_hash ann 4) 0 500 2.

Definition loop_ctx : sss_cli_mc_ctx :=
  toy_ctx (toy_bytes [7000; 7001] nna ++ zeros 8)
    (fun slot => if slot =? 0 then inr loop_rec else inl 2%positive).

(** * The IPA provider initialisation

    A shallow embedding of the back-end initialisation functions
    [sssm_ipa_init], [sssm_ipa_auth_init] and [sssm_ipa_chpass_init].
    Pointers are addresses ([Z], [0] for NULL); the objects the functions
    allocate live in per-type heaps; the functions they call into other
    modules (option parsing, TLS set-up, task set-up, signal registration,
    the debug file) are not among the sources, and what each of them yields
    in one call is given by a [world]. *)

(** The three operation tables of the file, by address. *)
Inductive bet_ops : Type := ipa_id_ops | ipa_auth_ops | ipa_chpass_ops.

Inductive bet_handler : Type := sdap_account_info_handler | krb5_pam_handler.

(** The [.handler] member of a table (lines 36-49). *)
Definition handler (ops : bet_ops) : bet_handler :=
  match ops with
  | ipa_id_ops => sdap_account_info_handler
  | ipa_auth_ops => krb5_pam_handler
  | ipa_chpass_ops => krb5_pam_handler
  end.

(** The members of [struct sdap_id_ctx] and [struct krb5_ctx] the functions
    write. *)
Record sdap_id_ctx : Type := { id_be : Z; id_opts : Z }.
Record krb5_ctx : Type := { krb5_opts : Z; child_debug_fd : Z }.

(** The members of [struct ipa_options] the functions use. *)
Record ipa_options_t : Type := { id_ctx : Z; auth_ctx : Z }.

(** The state the functions work on: the global [ipa_options] ([None] for
    NULL), the live context objects, and the descriptor flags of the
    process. *)
Record ipa_state : Type := {
  ipa_options : option ipa_options_t;
  id_heap : Z -> option sdap_id_ctx;
  krb5_heap : Z -> option krb5_ctx;
  fd_flags : Z -> Z
}.

(** What the callees yield in one call.  [w_errno] is the [errno] a failed
    [fileno] leaves, never [0]. *)
Record world : Type := {
  w_ipa_get_options : option ipa_options_t;
  w_talloc_zero : Z;
  w_ipa_get_id_options : Z * Z;
  w_setup_tls_config : Z;
  w_sdap_id_setup_tasks : Z;
  w_ipa_get_auth_options : Z * Z;
  w_check_and_export_options : Z;
  w_tevent_add_signal : bool;
  w_debug_to_file : Z;
  w_open_debug_file_ex : Z * Z;
  w_fileno : Z;
  w_errno : positive
}.

Definition FD_CLOEXEC : Z := 1.

(** Conversion to [unsigned], 32 bits wide. *)
Definition unsigned (z : Z) : Z := z mod 2 ^ 32.

Definition store {A : Type} (heap : Z -> option A) (p : Z) (v : option A)
    : Z -> option A :=
  fun q => if q =? p then v else heap q.

Definition set_flags (flags : Z -> Z) (fd v : Z) : Z -> Z :=
  fun d => if d =? fd then v else flags d.

(** Lines 58-62 and 114-118: the options are fetched when the global is
    NULL; the status of the fetch is not looked at. *)
Definition fetch_options (w : world) (st : ipa_state) : ipa_state :=
  match ipa_options st with
  | Some _ => st
  | None =>
      {| ipa_options := w_ipa_get_options w;
         id_heap := id_heap st;
         krb5_heap := krb5_heap st;
         fd_flags := fd_flags st |}
  end.

(** [sssm_ipa_init], lines 51-102.  The result is the status, the state, and
    what [*ops] and [*pvt_data] hold when the call returns. *)
Definition sssm_ipa_init (w : world) (bectx : Z) (st : ipa_state)
    (ops : option bet_ops) (pvt_data : Z)
    : Z * ipa_state * option bet_ops * Z :=
  let st1 := fetch_options w st in
  match ipa_options st1 with
  | None => (ENOMEM, st1, ops, pvt_data)
  | Some o =>
      let ctx := w_talloc_zero w in
      if ctx =? 0 then (ENOMEM, st1, ops, pvt_data)
      else
        let '(ret1, opts) := w_ipa_get_id_options w in
        let obj := {| id_be := bectx; id_opts := opts |} in
        let registered :=
          {| ipa_options := Some {| id_ctx := ctx; auth_ctx := auth_ctx o |};
             id_heap := store (id_heap st1) ctx (Some obj);
             krb5_heap := krb5_heap st1;
             fd_flags := fd_flags st1 |} in
        let freed :=
          {| ipa_options := Some {| id_ctx := 0; auth_ctx := auth_ctx o |};
             id_heap := store (id_heap st1) ctx None;
             krb5_heap := krb5_heap st1;
             fd_flags := fd_flags st1 |} in
        if negb (ret1 =? EOK) then (ret1, freed, ops, pvt_data)
        else
          let ret2 := w_setup_tls_config w in
          if negb (ret2 =? EOK) then (ret2, freed, ops, pvt_data)
          else
            let ret3 := w_sdap_id_setup_tasks w in
            if negb (ret3 =? EOK) then (ret3, freed, ops, pvt_data)
            else (EOK, registered, Some ipa_id_ops, ctx)
  end.

(** [sssm_ipa_auth_init], lines 104-185. *)
Definition sssm_ipa_auth_init (w : world) (bectx : Z) (st : ipa_state)
    (ops : option bet_ops) (pvt_data : Z)
    : Z * ipa_state * option bet_ops * Z :=
  let st1 := fetch_options w st in
  match ipa_options st1 with
  | None => (ENOMEM, st1, ops, pvt_data)
  | Some o =>
      if negb (auth_ctx o =? 0) then (EOK, st1, Some ipa_auth_ops, auth_ctx o)
      else
        let ctx := w_talloc_zero w in
        if ctx =? 0 then (ENOMEM, st1, ops, pvt_data)
        else
          let '(ret1, opts) := w_ipa_get_auth_options w in
          let registered (fd : Z) (flags : Z -> Z) :=
            {| ipa_options := Some {| id_ctx := id_ctx o; auth_ctx := ctx |};
               id_heap := id_heap st1;
               krb5_heap :=
                 store (krb5_heap st1) ctx
                   (Some {| krb5_opts := opts; child_debug_fd := fd |});
               fd_flags := flags |} in
          let freed :=
            {| ipa_options := Some {| id_ctx := id_ctx o; auth_ctx := 0 |};
               id_heap := id_heap st1;
               krb5_heap := store (krb5_heap st1) ctx None;
               fd_flags := fd_flags st1 |} in
          if negb (ret1 =? EOK) then (ret1, freed, ops, pvt_data)
          else
            let ret2 := w_check_and_export_options w in
            if negb (ret2 =? EOK) then (ret2, freed, ops, pvt_data)
            else if negb (w_tevent_add_signal w) then (ENOMEM, freed, ops, pvt_data)
            else if negb (w_debug_to_file w =? 0) then
              let '(ret3, debug_filep) := w_open_debug_file_ex w in
              if negb (ret3 =? EOK) then (ret3, freed, ops, pvt_data)
              else
                let fd := w_fileno w in
                if fd =? -1 then (Z.pos (w_errno w), freed, ops, pvt_data)
                else
                  let v := unsigned (fd_flags st1 fd) in
                  let flags :=
                    set_flags (fd_flags st1) fd
                      (Z.land v (unsigned (Z.lnot FD_CLOEXEC))) in
                  (EOK, registered fd flags, Some ipa_auth_ops, ctx)
            else (EOK, registered 0 (fd_flags st1), Some ipa_auth_ops, ctx)
  end.

(** [sssm_ipa_chpass_init], lines 187-192. *)
Definition sssm_ipa_chpass_init (w : world) (bectx : Z) (st : ipa_state)
    (ops : option bet_ops) (pvt_auth_data : Z)
    : Z * ipa_state * option bet_ops * Z :=
  sssm_ipa_auth_init w bectx st ops pvt_auth_data.

(** A start-up state and worlds for the examples: no options yet; a world in
    which every callee succeeds and the debug file is descriptor 7, and one
    in which nothing can be had. *)
Definition cold_state : ipa_state :=
  {| ipa_options := None;
     id_heap := fun _ => None;
     krb5_heap := fun _ => None;
     fd_flags := fun _ => 1 |}.

Definition kind_world : world :=
  {| w_ipa_get_options := Some {| id_ctx := 0; auth_ctx := 0 |};
     w_talloc_zero := 4096;
     w_ipa_get_id_options := (0, 8192);
     w_setup_tls_config := 0;
     w_sdap_id_setup_tasks := 0;
     w_ipa_get_auth_options := (0, 12288);
     w_check_and_export_options := 0;
     w_tevent_add_signal := true;
     w_debug_to_file := 1;
     w_open_debug_file_ex := (0, 16384);
     w_fileno := 7;
     w_errno := 9 |}.

Definition barren_world : world :=
  {| w_ipa_get_options := None;
     w_talloc_zero := 0;
     w_ipa_get_id_options := (5, 0);
     w_setup_tls_config := 5;
     w_sdap_id_setup_tasks := 5;
     w_ipa_get_auth_options := (5, 0);
     w_check_and_export_options := 5;
     w_tevent_add_signal := false;
     w_debug_to_file := 0;
     w_open_debug_file_ex := (5, 0);
     w_fileno := -1;
     w_errno := 9 |}.

(** A world in which the TLS set-up and the export of the options fail with
    errno 5, everything before them succeeding. *)
Definition sour_world : world :=
  {| w_ipa_get_options := Some {| id_ctx := 0; auth_ctx := 0 |};
     w_talloc_zero := 20480;
     w_ipa_get_id_options := (0, 8192);
     w_setup_tls_config := 5;
     w_sdap_id_setup_tasks := 0;
     w_ipa_get_auth_options := (0, 12288);
     w_check_and_export_options := 5;
     w_tevent_add_signal := true;
     w_debug_to_file := 0;
     w_open_debug_file_ex := (0, 16384);
     w_fileno := 7;
     w_errno := 9 |}.

(** * The continuous-integration driver

    A shallow embedding of parts of the shell script [contrib/ci/run]: the
    option loop of its main routine, the path relocation of [disppath] and
    the duration fields printed by [stage].  Shell words are strings; the
    script runs under [LC_ALL=C], so a character is a byte. *)

(** The variables the option loop sets (lines 43-47 of the script). *)
Record ci_options : Type := {
  BASE_PFX : String.string;
  DEPS : bool;
  MODERATE : bool;
  RIGOROUS : bool
}.

(** Their values before the loop. *)
Definition ci_defaults : ci_options :=
  {| BASE_PFX := String.EmptyString; DEPS := true;
     MODERATE := false; RIGOROUS := false |}.

Definition set_prefix (o : ci_options) (v : String.string) : ci_options :=
  {| BASE_PFX := v; DEPS := DEPS o; MODERATE := MODERATE o; RIGOROUS := RIGOROUS o |}.

Definition set_no_deps (o : ci_options) : ci_options :=
  {| BASE_PFX := BASE_PFX o; DEPS := false;
     MODERATE := MODERATE o; RIGOROUS := RIGOROUS o |}.

Definition set_mode (o : ci_options) (moderate rigorous : bool) : ci_options :=
  {| BASE_PFX := BASE_PFX o; DEPS := DEPS o;
     MODERATE := moderate; RIGOROUS := rigorous |}.

(** How the option loop ends: the script exits with a status; a positional
    parameter is referenced that is not set (an error under [nounset]); or
    the loop is left at the double dash with the words after it. *)
Inductive loop_end : Type :=
| LoopExits (status : Z)
| LoopUnbound
| LoopDone (o : ci_options) (rest : list String.string).

Definition word_in (w : String.string) (patterns : list String.string) : bool :=
  existsb (String.eqb w) patterns.

(** The [while true; do case "$1" in ... esac; done] loop of the main
    routine, on the words [getopt] has put in place of the arguments. *)
Fixpoint option_loop (args : list String.string) (o : ci_options) : loop_end :=
  match args with
  | [] => LoopUnbound
  | w :: rest =>
      if word_in w ["-h"; "--help"]%string then LoopExits 0
      else if word_in w ["-p"; "--prefix"]%string then
        match rest with
        | [] => LoopUnbound
        | v :: rest' => option_loop rest' (set_prefix o v)
        end
      else if word_in w ["-n"; "--no-deps"]%string then
        option_loop rest (set_no_deps o)
      else if word_in w ["-e"; "--essential"]%string then
        option_loop rest (set_mode o false false)
      else if word_in w ["-m"; "--moderate"]%string then
        option_loop rest (set_mode o true false)
      else if word_in w ["-r"; "--rigorous"; "-f"; "--full"]%string then
        option_loop rest (set_mode o true true)
      else if word_in w ["--"]%string then LoopDone o rest
      else LoopExits 1
  end.

(** The main routine up to the first stage: the loop, then the refusal of
    positional arguments.  [inl] is the exit status of a script that stops
    there, [inr] the options the stages run with. *)
Definition ci_command_line (args : list String.string) : option (Z + ci_options) :=
  match option_loop args ci_defaults with
  | LoopExits status => Some (inl status)
  | LoopUnbound => None
  | LoopDone o [] => Some (inr o)
  | LoopDone o (_ :: _) => Some (inl 1)
  end.

(** The mode an option word selects, for the words that select one. *)
Definition mode_of (w : String.string) : option (bool * bool) :=
  if word_in w ["-e"; "--essential"]%string then Some (false, false)
  else if word_in w ["-m"; "--moderate"]%string then Some (true, false)
  else if word_in w ["-r"; "--rigorous"; "-f"; "--full"]%string then Some (true, true)
  else None.

(** The expansion of [path] from a character offset on: the empty string
    when the offset is past the end. *)
Fixpoint string_from (offset : nat) (s : String.string) : String.string :=
  match offset, s with
  | O, _ => s
  | S n, String.EmptyString => String.EmptyString
  | S n, String.String _ s' => string_from n s'
  end.

(** [disppath]: the resolved [path] with its first [length BASE_DIR + 1]
    characters replaced by [BASE_PFX]. *)
Definition disppath (base_pfx base_dir path : String.string) : String.string :=
  String.append base_pfx (string_from (String.length base_dir + 1) path).

(** Shell arithmetic: 64-bit signed, division truncating towards zero. *)
Definition shell_div (a b : Z) : Z := long_int (Z.quot a b).
Definition shell_rem (a b : Z) : Z := long_int (Z.rem a b).

(** The three fields [stage] prints for a duration in seconds: hours,
    minutes, seconds. *)
Definition duration_fields (duration : Z) : Z * Z * Z :=
  (shell_div duration (long_int (60 * 60)),
   shell_rem (shell_div duration 60) 60,
   shell_rem duration 60).

(** * Properties *)

(** ** Machine arithmetic in range *)

(** Linear arithmetic with the powers of two of the machine types computed. *)
Ltac machine_lia :=
  unfold sizeof_gid in *;
  change (2 ^ 32) with 4294967296 in *;
  change (2 ^ 60) with 1152921504606846976 in *;
  change (2 ^ 61) with 2305843009213693952 in *;
  change (2 ^ 62) with 4611686018427387904 in *;
  change (2 ^ 63) with 9223372036854775808 in *;
  change (2 ^ 64) with 18446744073709551616 in *;
  lia.

Lemma long_int_small (z : Z) : - 2 ^ 63 <= z < 2 ^ 63 -> long_int z = z.
Proof.
  intros Hz. unfold long_int.
  rewrite Z.mod_small by lia. lia.
Qed.

Lemma size_t_small (z : Z) : 0 <= z < 2 ^ 64 -> size_t z = z.
Proof. intros Hz. unfold size_t. now rewrite Z.mod_small. Qed.

(** ** The reader count and the rest of the context *)

Lemma release_after_acquire (ctx : sss_cli_mc_ctx) :
  sync_sub_and_fetch (with_active_threads ctx (active_threads ctx + 1)) = ctx.
Proof.
  destruct ctx as [g d s b h a m r].
  unfold sync_sub_and_fetch, with_active_threads; simpl.
  f_equal. lia.
Qed.

Lemma strcmp_eq_count (ctx : sss_cli_mc_ctx) (n : Z) (name : list Z) :
  forall a, strcmp_eq (with_active_threads ctx n) name a = strcmp_eq ctx name a.
Proof.
  induction name as [|c name IH]; intros a; simpl; [reflexivity|].
  unfold read_byte, max_addr; simpl.
  destruct (_ && _); simpl; [|reflexivity].
  destruct (c =? 0); [reflexivity|].
  destruct (_ =? c); [apply IH | reflexivity].
Qed.

Lemma chain_walk_count (ctx : sss_cli_mc_ctx) (n : Z) (name : list Z) (name_len hash : Z) :
  forall fuel slot rec,
    chain_walk fuel (with_active_threads ctx n) name name_len hash slot rec
    = chain_walk fuel ctx name name_len hash slot rec.
Proof.
  induction fuel as [|fuel IH]; intros slot rec; simpl.
  - reflexivity.
  - destruct (negb _); [reflexivity|].
    destruct (mc_record ctx slot) as [err|r]; [reflexivity|].
    destruct (negb _); [apply IH|].
    change (integrity_violation (with_active_threads ctx n) r name_len)
      with (integrity_violation ctx r name_len).
    destruct (integrity_violation ctx r name_len); [reflexivity|].
    rewrite strcmp_eq_count.
    destruct (strcmp_eq ctx name _) as [[|]| | |]; simpl; try reflexivity.
    apply IH.
Qed.

Lemma copy_gids_count (ctx : sss_cli_mc_ctx) (n : Z) (gids : Z) :
  forall k i buf,
    copy_gids (with_active_threads ctx n) gids k i buf = copy_gids ctx gids k i buf.
Proof.
  induction k as [|k IH]; intros i buf; simpl; [reflexivity|].
  change (SAFEALIGN_COPY_UINT32 (with_active_threads ctx n))
    with (SAFEALIGN_COPY_UINT32 ctx).
  destruct (SAFEALIGN_COPY_UINT32 ctx _); simpl; try reflexivity.
  destruct (store_gid buf a); simpl; try reflexivity.
  apply IH.
Qed.

Lemma parse_result_count (env : libc) (ctx : sss_cli_mc_ctx) (n : Z)
    (rec : sss_mc_rec) (buf : result_buffer) (limit : Z) :
  sss_nss_mc_parse_result env (with_active_threads ctx n) rec buf limit
  = sss_nss_mc_parse_result env ctx rec buf limit.
Proof.
  unfold sss_nss_mc_parse_result.
  destruct (_ <? time_now env); [reflexivity|].
  destruct (_ <? data_members _).
  - destruct (grow_request _ _ _) as [newsize max_ret].
    destruct (realloc _ _ _); [|reflexivity].
    now rewrite copy_gids_count.
  - now rewrite copy_gids_count.
Qed.

(** ** The entry point, by the way the chain walk ends *)

Section EntryPoint.
Variables (fuel : nat) (env : libc) (ctx : sss_cli_mc_ctx).
Variables (name : list Z) (name_len group : Z).
Variables (buf : result_buffer) (limit : Z).

Lemma lookup_failed_attach :
  get_ctx_ret ctx <> 0 ->
  sss_nss_mc_initgroups_dyn fuel env ctx name name_len group buf limit
  = Ret (get_ctx_ret ctx, ctx, buf).
Proof.
  intros Hret. unfold sss_nss_mc_initgroups_dyn, sss_nss_mc_get_ctx.
  destruct (get_ctx_ret ctx =? 0) eqn:E; [lia|].
  now rewrite E.
Qed.

Lemma lookup_attached :
  get_ctx_ret ctx = 0 ->
  sss_nss_mc_initgroups_dyn fuel env ctx name name_len group buf limit
  = lookup_body fuel env (with_active_threads ctx (active_threads ctx + 1))
      name name_len buf limit.
Proof.
  intros Hret. unfold sss_nss_mc_initgroups_dyn, sss_nss_mc_get_ctx.
  now rewrite Hret.
Qed.

Lemma lookup_goto_done (ret : Z) :
  get_ctx_ret ctx = 0 ->
  first_walk fuel ctx name name_len = Ret (GotoDone ret) ->
  sss_nss_mc_initgroups_dyn fuel env ctx name name_len group buf limit
  = Ret (ret, ctx, buf).
Proof.
  intros Hret Hwalk. rewrite lookup_attached by assumption.
  unfold lookup_body. rewrite chain_walk_count.
  change (chain_walk fuel ctx name name_len _ _ None)
    with (first_walk fuel ctx name name_len).
  rewrite Hwalk. simpl. now rewrite release_after_acquire.
Qed.

Lemma lookup_exhausted (slot : Z) (rec : option sss_mc_rec) :
  get_ctx_ret ctx = 0 ->
  first_walk fuel ctx name name_len = Ret (LoopExit slot rec) ->
  MC_SLOT_WITHIN_BOUNDS slot (dt_size ctx) = false ->
  sss_nss_mc_initgroups_dyn fuel env ctx name name_len group buf limit
  = Ret (ENOENT, ctx, buf).
Proof.
  intros Hret Hwalk Hslot. rewrite lookup_attached by assumption.
  unfold lookup_body. rewrite chain_walk_count.
  change (chain_walk fuel ctx name name_len _ _ None)
    with (first_walk fuel ctx name name_len).
  rewrite Hwalk. simpl. rewrite Hslot. simpl.
  now rewrite release_after_acquire.
Qed.

Lemma lookup_found (r : sss_mc_rec) :
  get_ctx_ret ctx = 0 ->
  lookup_record fuel ctx name name_len = Some r ->
  sss_nss_mc_initgroups_dyn fuel env ctx name name_len group buf limit
  = let* (ret, buf') := sss_nss_mc_parse_result env ctx r buf limit in
    Ret (ret, ctx, buf').
Proof.
  intros Hret Hrec. rewrite lookup_attached by assumption.
  unfold lookup_body. rewrite chain_walk_count.
  unfold lookup_record in Hrec.
  change (chain_walk fuel ctx name name_len _ _ None)
    with (first_walk fuel ctx name name_len).
  destruct (first_walk fuel ctx name name_len) as [[ret|slot [r'|]]| | |]; try discriminate.
  simpl in *.
  destruct (MC_SLOT_WITHIN_BOUNDS slot (dt_size ctx)); [|discriminate].
  injection Hrec as ->. simpl.
  rewrite parse_result_count.
  destruct (sss_nss_mc_parse_result env ctx r buf limit) as [[ret buf']| | |];
    simpl; try reflexivity.
  now rewrite release_after_acquire.
Qed.
End EntryPoint.

(** ** The chain walk *)

Section Walk.
Variables (ctx : sss_cli_mc_ctx) (name : list Z) (name_len hash : Z).

Lemma walk_out_of_bounds (fuel : nat) (slot : Z) (rec : option sss_mc_rec) :
  MC_SLOT_WITHIN_BOUNDS slot (dt_size ctx) = false ->
  chain_walk fuel ctx name name_len hash slot rec = Ret (LoopExit slot rec).
Proof. intros Hslot. destruct fuel; simpl; now rewrite Hslot. Qed.

Lemma walk_passed_over (fuel : nat) (slot : Z) (rec : option sss_mc_rec)
    (r : sss_mc_rec) :
  passed_over ctx name name_len hash slot = Some r ->
  chain_walk (S fuel) ctx name name_len hash slot rec
  = chain_walk fuel ctx name name_len hash
      (sss_nss_mc_next_slot_with_hash r hash) (Some r).
Proof.
  unfold passed_over. simpl.
  destruct (MC_SLOT_WITHIN_BOUNDS slot (dt_size ctx)); [simpl|discriminate].
  destruct (mc_record ctx slot) as [err|r0]; [discriminate|].
  destruct (negb (hash =? rec_hash1 r0)).
  - now intros [= ->].
  - destruct (integrity_violation ctx r0 name_len); [discriminate|].
    destruct (strcmp_eq ctx name _) as [[|]| | |]; try discriminate.
    now intros [= ->].
Qed.

Lemma walk_follow (n : nat) :
  forall fuel slot rec s p,
    follow n ctx name name_len hash slot rec = Some (s, p) ->
    chain_walk (n + fuel) ctx name name_len hash slot rec
    = chain_walk fuel ctx name name_len hash s p.
Proof.
  induction n as [|n IH]; intros fuel slot rec s p Hf.
  - simpl in Hf. now injection Hf as -> ->.
  - simpl in Hf.
    destruct (passed_over ctx name name_len hash slot) as [r|] eqn:Hp;
      [|discriminate].
    change (S n + fuel)%nat with (S (n + fuel)).
    rewrite (walk_passed_over _ _ _ _ Hp).
    now apply IH.
Qed.

Lemma walk_integrity (fuel : nat) (slot : Z) (rec : option sss_mc_rec)
    (r : sss_mc_rec) :
  MC_SLOT_WITHIN_BOUNDS slot (dt_size ctx) = true ->
  mc_record ctx slot = inr r ->
  rec_hash1 r = hash ->
  integrity_violation ctx r name_len = true ->
  chain_walk (S fuel) ctx name name_len hash slot rec = Ret (GotoDone ENOENT).
Proof.
  intros Hslot Hrec Hhash Hviol. simpl.
  rewrite Hslot, Hrec. simpl.
  rewrite Hhash, Z.eqb_refl. simpl.
  now rewrite Hviol.
Qed.
End Walk.

(** ** The copy loop *)

Lemma read_gids_length (ctx : sss_cli_mc_ctx) (gids : Z) (n : nat) :
  forall i vs, read_gids ctx gids n i = Ret vs -> length vs = n.
Proof.
  induction n as [|n IH]; intros i vs; simpl.
  - now intros [= <-].
  - destruct (SAFEALIGN_COPY_UINT32 ctx _) as [v| | |]; simpl; try discriminate.
    destruct (read_gids ctx gids n (i + 1)) as [vs'| | |] eqn:E; simpl;
      try discriminate.
    intros [= <-]. simpl. f_equal. now apply (IH (i + 1)).
Qed.

Lemma read_gids_take (ctx : sss_cli_mc_ctx) (gids : Z) (n : nat) :
  forall k i vs,
    read_gids ctx gids n i = Ret vs -> (k <= n)%nat ->
    read_gids ctx gids k i = Ret (take k vs).
Proof.
  induction n as [|n IH]; intros k i vs; simpl.
  - intros [= <-] Hk. assert (k = 0%nat) as -> by lia. reflexivity.
  - destruct (SAFEALIGN_COPY_UINT32 ctx _) as [v| | |] eqn:Ev; simpl;
      try discriminate.
    destruct (read_gids ctx gids n (i + 1)) as [vs'| | |] eqn:E; simpl;
      try discriminate.
    intros [= <-] Hk. destruct k as [|k]; [reflexivity|].
    simpl. rewrite Ev. simpl.
    rewrite (IH k (i + 1) vs') by (assumption || lia). reflexivity.
Qed.

Lemma copy_gids_spec (ctx : sss_cli_mc_ctx) (gids : Z) (n : nat) :
  forall i vs buf,
    read_gids ctx gids n i = Ret vs ->
    0 <= start buf ->
    start buf + Z.of_nat n <= Z.of_nat (length (groups buf)) ->
    Z.of_nat (length (groups buf)) < 2 ^ 62 ->
    copy_gids ctx gids n i buf
    = Ret {| start := start buf + Z.of_nat n;
             size := size buf;
             groups := take (Z.to_nat (start buf)) (groups buf) ++ vs
                       ++ drop (Z.to_nat (start buf) + n) (groups buf) |}.
Proof.
  induction n as [|n IH]; intros i vs [s c g]; simpl.
  - intros [= <-] _ _ _. f_equal. f_equal; [lia|].
    simpl. rewrite Nat.add_0_r. now rewrite take_drop.
  - intros Hread Hs Hlen Hbig.
    destruct (SAFEALIGN_COPY_UINT32 ctx _) as [v| | |] eqn:Ev; simpl in Hread;
      try discriminate.
    destruct (read_gids ctx gids n (i + 1)) as [vs'| | |] eqn:E; simpl in Hread;
      try discriminate.
    injection Hread as <-. simpl.
    unfold store_gid; simpl.
    assert (Hin : (0 <=? s) && (s <? Z.of_nat (length g)) = true)
      by (apply andb_true_intro; split; [apply Z.leb_le | apply Z.ltb_lt]; lia).
    rewrite Hin. simpl.
    rewrite long_int_small by lia.
    rewrite (IH (i + 1) vs') by (simpl; rewrite ?length_insert; assumption || lia).
    simpl. f_equal. f_equal; [lia|].
    assert (Hk : (Z.to_nat s < length g)%nat) by lia.
    replace (Z.to_nat (s + 1)) with (S (Z.to_nat s)) by lia.
    rewrite (take_S_r _ _ v) by (now apply list_lookup_insert_eq).
    rewrite take_insert_ge by lia.
    rewrite drop_insert_lt by lia.
    rewrite <- app_assoc. simpl.
    now rewrite Nat.add_succ_r.
Qed.

(** ** [sss_nss_mc_parse_result], case by case *)

Lemma realloc_entries (env : libc) (block : list Z) (n : Z) :
  0 <= n < 2 ^ 62 ->
  realloc_ok env (size_t (n * sizeof_gid)) = true ->
  realloc env block (size_t (n * sizeof_gid))
  = Some (take (Z.to_nat n) block
          ++ map (heap_junk env) (seq (length block) (Z.to_nat n - length block))).
Proof.
  intros Hn Hok. unfold realloc. rewrite Hok.
  rewrite size_t_small by machine_lia.
  now rewrite Z.div_mul by (unfold sizeof_gid; lia).
Qed.

Section ParseResult.
Variables (env : libc) (ctx : sss_cli_mc_ctx) (rec : sss_mc_rec).
Variables (buf : result_buffer) (limit : Z).

Lemma parse_expired :
  rec_expire rec < time_now env ->
  sss_nss_mc_parse_result env ctx rec buf limit = Ret (EINVAL, buf).
Proof.
  intros Hexp. unfold sss_nss_mc_parse_result.
  now rewrite (proj2 (Z.ltb_lt _ _) Hexp).
Qed.

Lemma parse_fits (vs : list Z) :
  time_now env <= rec_expire rec ->
  buffer_wf buf ->
  0 <= data_members (rec_initgr rec) <= size buf - start buf ->
  payload ctx rec = Ret vs ->
  sss_nss_mc_parse_result env ctx rec buf limit
  = Ret (0, {| start := start buf + data_members (rec_initgr rec);
               size := size buf;
               groups := take (Z.to_nat (start buf)) (groups buf) ++ vs
                         ++ drop (Z.to_nat (start buf + data_members (rec_initgr rec))) (groups buf) |}).
Proof.
  intros Hlive (Hs & Hlen & Hbig) Hfit Hpay.
  unfold sss_nss_mc_parse_result.
  rewrite (proj2 (Z.ltb_ge _ _) Hlive).
  rewrite long_int_small by machine_lia.
  rewrite (proj2 (Z.ltb_ge _ _)) by machine_lia.
  unfold payload, gids_addr in Hpay.
  rewrite (copy_gids_spec _ _ _ _ _ _ Hpay) by machine_lia.
  simpl. rewrite Z2Nat.id by lia. rewrite <- Z2Nat.inj_add by lia.
  reflexivity.
Qed.

Lemma grow_request_uncapped :
  buffer_wf buf -> 0 <= data_members (rec_initgr rec) < 2 ^ 32 ->
  ~ (0 < limit < size buf + data_members (rec_initgr rec)) ->
  grow_request buf (data_members (rec_initgr rec)) limit = (size buf + data_members (rec_initgr rec), data_members (rec_initgr rec)).
Proof.
  intros (Hs & Hlen & Hbig) Hn Hlim. unfold grow_request.
  rewrite long_int_small by machine_lia.
  destruct (0 <? limit) eqn:E1; simpl; [|reflexivity].
  destruct (limit <? size buf + data_members (rec_initgr rec)) eqn:E2; [|reflexivity].
  apply Z.ltb_lt in E1, E2. machine_lia.
Qed.

Lemma grow_request_capped :
  buffer_wf buf -> 0 <= data_members (rec_initgr rec) < 2 ^ 32 ->
  0 < limit < size buf + data_members (rec_initgr rec) ->
  grow_request buf (data_members (rec_initgr rec)) limit = (limit, limit - start buf).
Proof.
  intros (Hs & Hlen & Hbig) Hn [Hl1 Hl2]. unfold grow_request.
  rewrite long_int_small by machine_lia.
  rewrite (proj2 (Z.ltb_lt _ _) Hl1), (proj2 (Z.ltb_lt _ _) Hl2). simpl.
  now rewrite long_int_small by machine_lia.
Qed.

Lemma parse_alloc_failure :
  time_now env <= rec_expire rec ->
  long_int (size buf - start buf) < data_members (rec_initgr rec) ->
  realloc_ok env (size_t (fst (grow_request buf (data_members (rec_initgr rec)) limit) * sizeof_gid)) = false ->
  sss_nss_mc_parse_result env ctx rec buf limit = Ret (ENOMEM, buf).
Proof.
  intros Hlive Hsmall Hfail.
  unfold sss_nss_mc_parse_result.
  rewrite (proj2 (Z.ltb_ge _ _) Hlive).
  rewrite (proj2 (Z.ltb_lt _ _) Hsmall).
  destruct (grow_request _ _ _) as [newsize max_ret]. simpl in Hfail.
  unfold realloc. now rewrite Hfail.
Qed.

Lemma parse_grown (newsize max_ret : Z) (vs : list Z) :
  time_now env <= rec_expire rec ->
  buffer_wf buf ->
  size buf - start buf < data_members (rec_initgr rec) ->
  grow_request buf (data_members (rec_initgr rec)) limit = (newsize, max_ret) ->
  realloc_ok env (size_t (newsize * sizeof_gid)) = true ->
  0 <= max_ret <= data_members (rec_initgr rec) ->
  start buf + max_ret <= newsize < 2 ^ 61 ->
  payload ctx rec = Ret vs ->
  sss_nss_mc_parse_result env ctx rec buf limit
  = Ret (0, {| start := start buf + max_ret;
               size := newsize;
               groups :=
                 take (Z.to_nat (start buf)) (groups buf)
                 ++ take (Z.to_nat max_ret) vs
                 ++ drop (Z.to_nat (start buf + max_ret))
                      (take (Z.to_nat newsize) (groups buf)
                       ++ map (heap_junk env)
                            (seq (length (groups buf))
                               (Z.to_nat newsize - length (groups buf)))) |}).
Proof.
  intros Hlive (Hs & Hlen & Hbig) Hsmall Hreq Hok Hmax Hnew Hpay.
  unfold sss_nss_mc_parse_result.
  rewrite (proj2 (Z.ltb_ge _ _) Hlive).
  rewrite long_int_small by machine_lia.
  rewrite (proj2 (Z.ltb_lt _ _) Hsmall).
  rewrite Hreq. rewrite realloc_entries by (assumption || machine_lia).
  set (block := take (Z.to_nat newsize) (groups buf) ++ _).
  assert (Hblock : length block = Z.to_nat newsize).
  { subst block. rewrite length_app, length_take, length_map, length_seq. lia. }
  unfold payload, gids_addr in Hpay.
  assert (Hpart := read_gids_take _ _ _ (Z.to_nat max_ret) _ _ Hpay ltac:(machine_lia)).
  rewrite (copy_gids_spec _ _ _ _ _ _ Hpart) by (simpl; machine_lia).
  simpl. rewrite Z2Nat.id by lia. rewrite <- Z2Nat.inj_add by lia.
  subst block. rewrite take_app_le by (rewrite length_take; lia).
  rewrite take_take. rewrite Nat.min_l by lia.
  reflexivity.
Qed.
End ParseResult.

(** ** The integrity check (lines 131-138) *)

(** What the check does establish for the record a walk stops at: the array
    of group identifiers starts, and the first [name_len] bytes of the stored
    name end, at or below [max_addr]. *)
Lemma walk_exit_checked (ctx : sss_cli_mc_ctx) (name : list Z) (name_len hash : Z)
    (s : Z) (r : sss_mc_rec) :
  forall fuel slot prev,
    chain_walk fuel ctx name name_len hash slot prev = Ret (LoopExit s (Some r)) ->
    MC_SLOT_WITHIN_BOUNDS s (dt_size ctx) = true ->
    gids_addr r <= max_addr ctx /\ key_end r name_len <= max_addr ctx.
Proof.
  induction fuel as [|fuel IH]; intros slot prev; simpl.
  - destruct (negb _) eqn:E; [|discriminate].
    apply negb_true_iff in E. intros [= <- _] Hs. congruence.
  - destruct (negb _) eqn:E.
    + apply negb_true_iff in E. intros [= <- _] Hs. congruence.
    + destruct (mc_record ctx slot) as [err|r0]; [discriminate|].
      destruct (negb (_ =? rec_hash1 r0)); [apply IH|].
      destruct (integrity_violation ctx r0 name_len) eqn:Hv; [discriminate|].
      destruct (strcmp_eq ctx name _) as [[|]| | |]; simpl; try discriminate;
        [|apply IH].
      intros [= <- <-] _.
      unfold integrity_violation in Hv. apply orb_false_iff in Hv as [H1 H2].
      unfold gids_addr, key_end. lia.
Qed.

(** X1.  The record a lookup stops at has passed the integrity check: its
    array of group identifiers starts, and the first [name_len] bytes of its
    stored name end, at or below [max_addr]. *)
Lemma integrity_check_guarantee (fuel : nat) (ctx : sss_cli_mc_ctx)
    (name : list Z) (name_len : Z) (r : sss_mc_rec) :
  lookup_record fuel ctx name name_len = Some r ->
  gids_addr r <= max_addr ctx /\ key_end r name_len <= max_addr ctx.
Proof.
  unfold lookup_record, first_walk.
  destruct (chain_walk _ _ _ _ _ _ _) as [[ret|s [r0|]]| | |] eqn:Hw;
    try discriminate.
  destruct (MC_SLOT_WITHIN_BOUNDS s (dt_size ctx)) eqn:Hs; [|discriminate].
  intros [= <-]. eapply walk_exit_checked; eassumption.
Qed.

(** C1 (defect of the code).  The claim: the payload end address
    [record_address + payload_offset + payload_count * 4] of every candidate is
    checked against [arena_base + extent] before any payload byte is read, a
    violation giving "not found" and never a read outside the table.  The
    check of lines 134-135 compares the START of the array with [max_addr]:
    in [torn_ctx] the record of "ann" has its payload end 4 bytes past
    [max_addr], passes the check, is taken as the match, and the copy loop
    reads the byte at [max_addr]. *)
Theorem C1_payload_end_unchecked :
  payload_end torn_rec = max_addr torn_ctx + 4
  /\ key_end torn_rec 3 <= max_addr torn_ctx
  /\ integrity_violation torn_ctx torn_rec 3 = false
  /\ lookup_record 5 torn_ctx ann 3 = Some torn_rec
  /\ sss_nss_mc_initgroups_dyn 5 fair_libc torn_ctx ann 3 0
       (buffer_of 0 (zeros 8)) 0
     = BadRead (max_addr torn_ctx).
Proof. repeat split; vm_compute; congruence. Qed.

(** The other half of the check has the same gap by one byte: a stored name
    whose first [name_len] bytes end exactly at [max_addr] passes, and
    [strcmp] then reads its terminator at [max_addr]. *)
Lemma key_terminator_unchecked :
  key_end edge_rec 3 = max_addr edge_ctx
  /\ integrity_violation edge_ctx edge_rec 3 = false
  /\ sss_nss_mc_initgroups_dyn 5 fair_libc edge_ctx ann 3 0
       (buffer_of 0 (zeros 8)) 0
     = BadRead (max_addr edge_ctx).
Proof. repeat split; vm_compute; congruence. Qed.

(** ** Leaving the walk on a failed integrity check *)

(** C2 (counterexample).  The claim: after a rejection for a bounds violation
    the lookup goes on along [next_same_hash] and reports NotFound only once
    the chain is exhausted.  In [chain2_ctx] the first candidate of "ann"
    fails the bounds check and its link leads to a live record of "ann": the
    lookup reports NotFound although the chain is not exhausted, and the walk
    from the rejected slot is not the walk from the next slot. *)
Lemma C2_counterexample :
  let hash := name_hash chain2_ctx ann 3 in
  let slot := first_slot chain2_ctx ann 3 in
  let next := sss_nss_mc_next_slot_with_hash stray_rec hash in
  mc_record chain2_ctx slot = inr stray_rec
  /\ rec_hash1 stray_rec = hash
  /\ integrity_violation chain2_ctx stray_rec 3 = true
  /\ MC_SLOT_WITHIN_BOUNDS next (dt_size chain2_ctx) = true
  /\ chain_walk 4 chain2_ctx ann 3 hash next (Some stray_rec)
     = Ret (LoopExit next (Some second_rec))
  /\ chain_walk 5 chain2_ctx ann 3 hash slot None
     <> chain_walk 4 chain2_ctx ann 3 hash next (Some stray_rec)
  /\ sss_nss_mc_initgroups_dyn 5 fair_libc chain2_ctx ann 3 0
       (buffer_of 0 (zeros 4)) 0
     = Ret (NotFound, chain2_ctx, buffer_of 0 (zeros 4)).
Proof.
  cbv zeta. repeat split; vm_compute; congruence.
Qed.

(** C2 (amended).  When a candidate reached by the lookup, [n] links down the
    chain, has the hash of the query and fails the bounds check, the lookup
    ends there: it reports NotFound without following [next_same_hash],
    leaves the group array as it was and has released the reader count. *)
Theorem C2_bounds_rejection_ends_lookup (n fuel : nat) (env : libc)
    (ctx : sss_cli_mc_ctx) (name : list Z) (name_len group : Z)
    (buf : result_buffer) (limit : Z)
    (slot : Z) (prev : option sss_mc_rec) (r : sss_mc_rec) :
  get_ctx_ret ctx = 0 ->
  follow n ctx name name_len (name_hash ctx name name_len)
    (first_slot ctx name name_len) None = Some (slot, prev) ->
  MC_SLOT_WITHIN_BOUNDS slot (dt_size ctx) = true ->
  mc_record ctx slot = inr r ->
  rec_hash1 r = name_hash ctx name name_len ->
  integrity_violation ctx r name_len = true ->
  (n < fuel)%nat ->
  sss_nss_mc_initgroups_dyn fuel env ctx name name_len group buf limit
  = Ret (NotFound, ctx, buf).
Proof.
  intros Hctx Hfollow Hslot Hrec Hhash Hviol Hfuel.
  apply lookup_goto_done; [assumption|].
  unfold first_walk.
  replace fuel with (n + S (fuel - n - 1))%nat by lia.
  rewrite (walk_follow _ _ _ _ _ _ _ _ _ _ Hfollow).
  eapply walk_integrity; eassumption.
Qed.

Lemma C2_bounds_rejection_ends_lookup_witness :
  sss_nss_mc_initgroups_dyn 5 fair_libc chain2_ctx ann 3 0 (buffer_of 0 (zeros 4)) 0
  = Ret (NotFound, chain2_ctx, buffer_of 0 (zeros 4)).
Proof.
  apply (C2_bounds_rejection_ends_lookup 0 5 fair_libc chain2_ctx ann 3 0
           (buffer_of 0 (zeros 4)) 0 0 None stray_rec);
    first [reflexivity | lia].
Defined.

(** ** The reader count *)

(** C3.  Whatever status a call returns, the reader count after the call is
    the reader count before it; when the context was attached, the context
    the call leaves is the attached one after exactly one decrement. *)
Theorem C3_reader_count_balanced (fuel : nat) (env : libc) (ctx : sss_cli_mc_ctx)
    (name : list Z) (name_len group : Z) (buf : result_buffer) (limit : Z)
    (ret : Z) (ctx' : sss_cli_mc_ctx) (buf' : result_buffer) :
  sss_nss_mc_initgroups_dyn fuel env ctx name name_len group buf limit
  = Ret (ret, ctx', buf') ->
  active_threads ctx' = active_threads ctx
  /\ (get_ctx_ret ctx = 0 ->
      ctx' = sync_sub_and_fetch (snd (sss_nss_mc_get_ctx ctx))).
Proof.
  destruct (Z.eq_dec (get_ctx_ret ctx) 0) as [Hctx|Hctx].
  - rewrite lookup_attached by assumption.
    unfold sss_nss_mc_get_ctx. rewrite Hctx. simpl.
    set (ctx1 := with_active_threads ctx (active_threads ctx + 1)).
    unfold lookup_body.
    destruct (chain_walk _ _ _ _ _ _ _) as [w| | |]; simpl; try discriminate.
    assert (Hall : forall m : exec (Z * result_buffer),
               (let* (ret0, buf0) := m in Ret (ret0, sync_sub_and_fetch ctx1, buf0))
               = Ret (ret, ctx', buf') -> ctx' = sync_sub_and_fetch ctx1).
    { intros [[ret0 buf0]| | |]; simpl; congruence. }
    intros Hrun. apply Hall in Hrun. subst ctx'. split; [|reflexivity].
    subst ctx1. now rewrite release_after_acquire.
  - rewrite lookup_failed_attach by assumption.
    intros [= _ <- _]. split; [reflexivity | contradiction].
Qed.

Lemma C3_reader_count_balanced_witness :
  let after (ctx' : sss_cli_mc_ctx) :=
    active_threads ctx' = active_threads ann3_ctx
    /\ (get_ctx_ret ann3_ctx = 0 ->
        ctx' = sync_sub_and_fetch (snd (sss_nss_mc_get_ctx ann3_ctx))) in
  after ann3_ctx /\ after ann3_ctx /\ after ann3_ctx /\ after ann3_ctx.
Proof.
  cbv zeta. split; [|split; [|split]].
  - (* Success *)
    apply (C3_reader_count_balanced 5 fair_libc ann3_ctx ann 3 0
             (buffer_of 0 (zeros 4)) 0 Success ann3_ctx
             {| start := 3; size := 4; groups := [1000; 1001; 1002; 0] |}).
    vm_compute. reflexivity.
  - (* NotFound *)
    apply (C3_reader_count_balanced 5 fair_libc ann3_ctx bob 3 0
             (buffer_of 0 (zeros 4)) 0 NotFound ann3_ctx (buffer_of 0 (zeros 4))).
    vm_compute. reflexivity.
  - (* Expired *)
    apply (C3_reader_count_balanced 5 (toy_libc 501 4096) ann3_ctx ann 3 0
             (buffer_of 0 (zeros 4)) 0 Expired ann3_ctx (buffer_of 0 (zeros 4))).
    vm_compute. reflexivity.
  - (* AllocationFailure *)
    apply (C3_reader_count_balanced 5 (toy_libc 100 8) ann3_ctx ann 3 0
             (buffer_of 2 [7; 8]) 0 AllocationFailure ann3_ctx (buffer_of 2 [7; 8])).
    vm_compute. reflexivity.
Defined.

(** Each of the four statuses is returned by some call, the context being
    left as it was found. *)
Lemma every_status_occurs :
  sss_nss_mc_initgroups_dyn 5 fair_libc ann3_ctx ann 3 0 (buffer_of 0 (zeros 4)) 0
  = Ret (Success, ann3_ctx, {| start := 3; size := 4; groups := [1000; 1001; 1002; 0] |})
  /\ sss_nss_mc_initgroups_dyn 5 fair_libc ann3_ctx bob 3 0 (buffer_of 0 (zeros 4)) 0
     = Ret (NotFound, ann3_ctx, buffer_of 0 (zeros 4))
  /\ sss_nss_mc_initgroups_dyn 5 (toy_libc 501 4096) ann3_ctx ann 3 0
       (buffer_of 0 (zeros 4)) 0
     = Ret (Expired, ann3_ctx, buffer_of 0 (zeros 4))
  /\ sss_nss_mc_initgroups_dyn 5 (toy_libc 100 8) ann3_ctx ann 3 0
       (buffer_of 2 [7; 8]) 0
     = Ret (AllocationFailure, ann3_ctx, buffer_of 2 [7; 8]).
Proof. repeat split; vm_compute; reflexivity. Qed.

(** ** Extraction into the group array *)

(** The record the walk stops at, when it is live and has three group
    identifiers, is copied to the front of a group array with cursor 0 and
    room for three. *)
Lemma walk_match_extracted (fuel : nat) (env : libc) (ctx : sss_cli_mc_ctx)
    (name : list Z) (name_len group : Z) (buf : result_buffer) (limit : Z)
    (r : sss_mc_rec) (g1 g2 g3 : Z) :
  get_ctx_ret ctx = 0 ->
  lookup_record fuel ctx name name_len = Some r ->
  time_now env <= rec_expire r ->
  payload ctx r = Ret [g1; g2; g3] ->
  buffer_wf buf ->
  start buf = 0 ->
  3 <= size buf ->
  sss_nss_mc_initgroups_dyn fuel env ctx name name_len group buf limit
  = Ret (Success, ctx,
         {| start := 3;
            size := size buf;
            groups := [g1; g2; g3] ++ drop 3 (groups buf) |}).
Proof.
  intros Hctx Hrec Hlive Hpay Hwf Hstart Hsize.
  assert (Hn : data_members (rec_initgr r) = 3).
  { apply read_gids_length in Hpay. simpl in Hpay. lia. }
  rewrite (lookup_found _ _ _ _ _ _ _ _ _ Hctx Hrec).
  rewrite (parse_fits env ctx r buf limit [g1; g2; g3]) by (assumption || lia).
  rewrite Hstart, Hn. reflexivity.
Qed.

(** A stored name that holds the characters of the query followed by a
    terminator compares equal. *)
Lemma strcmp_eq_of_bytes (ctx : sss_cli_mc_ctx) (name : list Z) :
  Forall (fun c => c <> 0) name ->
  forall a,
    (forall (i : nat) (c : Z),
        name !! i = Some c -> read_byte ctx (a + Z.of_nat i) = Ret c) ->
    read_byte ctx (a + Z.of_nat (length name)) = Ret 0 ->
    strcmp_eq ctx name a = Ret true.
Proof.
  induction 1 as [|c name Hc Hname IH]; intros a Hchars Hterm; simpl.
  - simpl in Hterm. rewrite Z.add_0_r in Hterm. now rewrite Hterm.
  - pose proof (Hchars 0%nat c eq_refl) as H0. simpl in H0.
    rewrite Z.add_0_r in H0. rewrite H0. simpl.
    rewrite (proj2 (Z.eqb_neq c 0) Hc). rewrite Z.eqb_refl.
    apply IH.
    + intros i c' Hi.
      replace (a + 1 + Z.of_nat i) with (a + Z.of_nat (S i)) by lia.
      now apply Hchars.
    + replace (a + 1 + Z.of_nat (length name))
        with (a + Z.of_nat (S (length name))) by lia.
      exact Hterm.
Qed.

(** A record of the arena that holds the key is the one the walk stops at:
    it sits [n] links down the chain of the key's hash slot, behind
    candidates that are passed over, has the hash of the key, starts its
    array of group identifiers and ends the first [name_len] bytes of its
    name at or below [max_addr], and its stored name is the key. *)
Lemma key_in_chain_found (n fuel : nat) (ctx : sss_cli_mc_ctx)
    (name : list Z) (name_len : Z)
    (slot : Z) (prev : option sss_mc_rec) (r : sss_mc_rec) :
  Forall (fun c => c <> 0) name ->
  follow n ctx name name_len (name_hash ctx name name_len)
    (first_slot ctx name name_len) None = Some (slot, prev) ->
  MC_SLOT_WITHIN_BOUNDS slot (dt_size ctx) = true ->
  mc_record ctx slot = inr r ->
  rec_hash1 r = name_hash ctx name name_len ->
  gids_addr r <= max_addr ctx ->
  key_end r name_len <= max_addr ctx ->
  (forall (i : nat) (c : Z),
      name !! i = Some c ->
      read_byte ctx (rec_data r + data_name (rec_initgr r) + Z.of_nat i) = Ret c) ->
  read_byte ctx (rec_data r + data_name (rec_initgr r) + Z.of_nat (length name))
  = Ret 0 ->
  (n < fuel)%nat ->
  lookup_record fuel ctx name name_len = Some r.
Proof.
  intros Hname Hfollow Hslot Hrec Hhash Hgids Hkey Hchars Hterm Hfuel.
  assert (Hviol : integrity_violation ctx r name_len = false).
  { unfold integrity_violation. unfold gids_addr in Hgids. unfold key_end in Hkey.
    apply orb_false_intro; rewrite Z.gtb_ltb; apply Z.ltb_ge; assumption. }
  pose proof (strcmp_eq_of_bytes ctx name Hname _ Hchars Hterm) as Hcmp.
  unfold lookup_record, first_walk.
  replace fuel with (n + S (fuel - n - 1))%nat by lia.
  rewrite (walk_follow _ _ _ _ _ _ _ _ _ _ Hfollow).
  cbn [chain_walk]. rewrite Hslot, Hrec. simpl.
  rewrite Hhash, Z.eqb_refl. simpl.
  rewrite Hviol, Hcmp. simpl. now rewrite Hslot.
Qed.

(** C6.  A key is present in the cache when a record of the arena holds it
    where the lookup looks for it: the record sits in the chain of the key's
    hash slot, [n] links down behind candidates that are passed over for
    their hash or their name, it carries the hash of the key, its array of
    group identifiers starts and the first [name_len] bytes of its name end
    at or below [max_addr], and its stored name is the bytes of the key
    followed by a terminator.  For such a key whose record is not expired
    and has the payload [g1; g2; g3], and a group array with cursor 0 and
    capacity at least 3, the lookup returns Success, the cursor becomes 3
    and the first three entries are [g1; g2; g3], in the order of the
    record. *)
Theorem C6_exact_match (n fuel : nat) (env : libc) (ctx : sss_cli_mc_ctx)
    (name : list Z) (name_len group : Z) (buf : result_buffer) (limit : Z)
    (slot : Z) (prev : option sss_mc_rec) (r : sss_mc_rec) (g1 g2 g3 : Z) :
  get_ctx_ret ctx = 0 ->
  Forall (fun c => c <> 0) name ->
  follow n ctx name name_len (name_hash ctx name name_len)
    (first_slot ctx name name_len) None = Some (slot, prev) ->
  MC_SLOT_WITHIN_BOUNDS slot (dt_size ctx) = true ->
  mc_record ctx slot = inr r ->
  rec_hash1 r = name_hash ctx name name_len ->
  gids_addr r <= max_addr ctx ->
  key_end r name_len <= max_addr ctx ->
  (forall (i : nat) (c : Z),
      name !! i = Some c ->
      read_byte ctx (rec_data r + data_name (rec_initgr r) + Z.of_nat i) = Ret c) ->
  read_byte ctx (rec_data r + data_name (rec_initgr r) + Z.of_nat (length name))
  = Ret 0 ->
  (n < fuel)%nat ->
  time_now env <= rec_expire r ->
  payload ctx r = Ret [g1; g2; g3] ->
  buffer_wf buf ->
  start buf = 0 ->
  3 <= size buf ->
  sss_nss_mc_initgroups_dyn fuel env ctx name name_len group buf limit
  = Ret (Success, ctx,
         {| start := 3;
            size := size buf;
            groups := [g1; g2; g3] ++ drop 3 (groups buf) |}).
Proof.
  intros Hctx Hname Hfollow Hslot Hrec Hhash Hgids Hkey Hchars Hterm Hfuel
    Hlive Hpay Hwf Hstart Hsize.
  apply (walk_match_extracted fuel env ctx name name_len group buf limit r);
    try assumption.
  exact (key_in_chain_found n fuel ctx name name_len slot prev r
           Hname Hfollow Hslot Hrec Hhash Hgids Hkey Hchars Hterm Hfuel).
Qed.

Lemma C6_exact_match_witness :
  sss_nss_mc_initgroups_dyn 2 fair_libc collide_ctx ann 3 0
    (buffer_of 0 [7; 7; 7; 7]) 0
  = Ret (Success, collide_ctx,
         {| start := 3; size := 4; groups := [1000; 1001; 1002] ++ drop 3 [7; 7; 7; 7] |}).
Proof.
  apply (C6_exact_match 1 2 fair_libc collide_ctx ann 3 0 (buffer_of 0 [7; 7; 7; 7]) 0
           60 (Some nna_rec) second_rec 1000 1001 1002).
  - reflexivity.
  - repeat constructor; discriminate.
  - reflexivity.
  - reflexivity.
  - reflexivity.
  - reflexivity.
  - vm_compute. discriminate.
  - vm_compute. discriminate.
  - intros [|[|[|i]]] c; simpl; intros [= <-]; reflexivity.
  - reflexivity.
  - lia.
  - vm_compute. discriminate.
  - reflexivity.
  - unfold buffer_wf. vm_compute. intuition congruence.
  - reflexivity.
  - vm_compute. discriminate.
Defined.

(** C7.  For a matching record whose expiry time is strictly before the
    current time the lookup returns Expired, which is not NotFound, and the
    cursor and the contents of the group array are unchanged. *)
Theorem C7_expired (fuel : nat) (env : libc) (ctx : sss_cli_mc_ctx)
    (name : list Z) (name_len group : Z) (buf : result_buffer) (limit : Z)
    (r : sss_mc_rec) :
  get_ctx_ret ctx = 0 ->
  lookup_record fuel ctx name name_len = Some r ->
  rec_expire r < time_now env ->
  sss_nss_mc_initgroups_dyn fuel env ctx name name_len group buf limit
  = Ret (Expired, ctx, buf)
  /\ Expired <> NotFound.
Proof.
  intros Hctx Hrec Hexp. split; [|discriminate].
  rewrite (lookup_found _ _ _ _ _ _ _ _ _ Hctx Hrec).
  now rewrite parse_expired.
Qed.

Lemma C7_expired_witness :
  sss_nss_mc_initgroups_dyn 5 (toy_libc 501 4096) ann3_ctx ann 3 0
    (buffer_of 0 [7; 7; 7; 7]) 0
  = Ret (Expired, ann3_ctx, buffer_of 0 [7; 7; 7; 7])
  /\ Expired <> NotFound.
Proof.
  apply (C7_expired 5 (toy_libc 501 4096) ann3_ctx ann 3 0
           (buffer_of 0 [7; 7; 7; 7]) 0 ann3_rec);
    first [reflexivity | vm_compute; reflexivity].
Defined.

(** C8.  When the group array must grow and [realloc] fails, the lookup
    returns AllocationFailure, the group array (contents, capacity and cursor)
    is as before, and the reader count has been released. *)
Theorem C8_allocation_failure (fuel : nat) (env : libc) (ctx : sss_cli_mc_ctx)
    (name : list Z) (name_len group : Z) (buf : result_buffer) (limit : Z)
    (r : sss_mc_rec) :
  get_ctx_ret ctx = 0 ->
  lookup_record fuel ctx name name_len = Some r ->
  time_now env <= rec_expire r ->
  long_int (size buf - start buf) < data_members (rec_initgr r) ->
  realloc_ok env
    (size_t (fst (grow_request buf (data_members (rec_initgr r)) limit) * sizeof_gid))
  = false ->
  sss_nss_mc_initgroups_dyn fuel env ctx name name_len group buf limit
  = Ret (AllocationFailure, ctx, buf).
Proof.
  intros Hctx Hrec Hlive Hsmall Hfail.
  rewrite (lookup_found _ _ _ _ _ _ _ _ _ Hctx Hrec).
  now rewrite parse_alloc_failure.
Qed.

Lemma C8_allocation_failure_witness :
  sss_nss_mc_initgroups_dyn 5 (toy_libc 100 8) ann5_ctx ann 3 0 (buffer_of 2 [7; 8]) 0
  = Ret (AllocationFailure, ann5_ctx, buffer_of 2 [7; 8]).
Proof.
  apply (C8_allocation_failure 5 (toy_libc 100 8) ann5_ctx ann 3 0
           (buffer_of 2 [7; 8]) 0 ann5_rec);
    first [reflexivity | vm_compute; reflexivity | vm_compute; congruence].
Defined.

(** ** Misses *)

(** A chain that runs out of the table after [n] links is a miss. *)
Lemma lookup_chain_exhausted (n fuel : nat) (env : libc) (ctx : sss_cli_mc_ctx)
    (name : list Z) (name_len group : Z) (buf : result_buffer) (limit : Z)
    (slot : Z) (prev : option sss_mc_rec) :
  get_ctx_ret ctx = 0 ->
  follow n ctx name name_len (name_hash ctx name name_len)
    (first_slot ctx name name_len) None = Some (slot, prev) ->
  MC_SLOT_WITHIN_BOUNDS slot (dt_size ctx) = false ->
  (n <= fuel)%nat ->
  sss_nss_mc_initgroups_dyn fuel env ctx name name_len group buf limit
  = Ret (ENOENT, ctx, buf).
Proof.
  intros Hctx Hfollow Hslot Hfuel.
  apply lookup_exhausted with (slot := slot) (rec := prev); try assumption.
  unfold first_walk.
  replace fuel with (n + (fuel - n))%nat by lia.
  rewrite (walk_follow _ _ _ _ _ _ _ _ _ _ Hfollow).
  now apply walk_out_of_bounds.
Qed.

(** C9.  For a key whose first hash-table slot is outside [0, extent), the
    lookup returns NotFound, whatever the fuel, and leaves the cursor (and the
    whole group array) unchanged; more generally, a chain that leaves the
    table after any number of passed-over candidates is reported NotFound. *)
Theorem C9_miss (fuel : nat) (env : libc) (ctx : sss_cli_mc_ctx)
    (name : list Z) (name_len group : Z) (buf : result_buffer) (limit : Z) :
  get_ctx_ret ctx = 0 ->
  (MC_SLOT_WITHIN_BOUNDS (first_slot ctx name name_len) (dt_size ctx) = false ->
   sss_nss_mc_initgroups_dyn fuel env ctx name name_len group buf limit
   = Ret (NotFound, ctx, buf))
  /\ (forall (n : nat) (slot : Z) (prev : option sss_mc_rec),
        follow n ctx name name_len (name_hash ctx name name_len)
          (first_slot ctx name name_len) None = Some (slot, prev) ->
        MC_SLOT_WITHIN_BOUNDS slot (dt_size ctx) = false ->
        (n <= fuel)%nat ->
        sss_nss_mc_initgroups_dyn fuel env ctx name name_len group buf limit
        = Ret (NotFound, ctx, buf)).
Proof.
  intros Hctx. split.
  - intros Hslot.
    apply (lookup_chain_exhausted 0 fuel env ctx name name_len group buf limit
             (first_slot ctx name name_len) None); try assumption;
      [reflexivity | lia].
  - intros n slot prev Hfollow Hslot Hfuel.
    now apply (lookup_chain_exhausted n fuel env ctx name name_len group buf limit
                 slot prev).
Qed.

Lemma C9_miss_witness :
  sss_nss_mc_initgroups_dyn 0 fair_libc ann3_ctx bob 3 0 (buffer_of 1 [7; 7]) 0
  = Ret (NotFound, ann3_ctx, buffer_of 1 [7; 7]).
Proof.
  apply (proj1 (C9_miss 0 fair_libc ann3_ctx bob 3 0 (buffer_of 1 [7; 7]) 0
                  eq_refl)).
  reflexivity.
Defined.

(** ** The hard limit *)

(** C10.  When the matching record is live and the free tail of the group
    array already holds its payload, all its entries are copied and the cursor
    advances by their number, whatever the hard limit: also when
    [0 < limit < start + payload_count]. *)
Theorem C10_limit_ignored_when_payload_fits (fuel : nat) (env : libc)
    (ctx : sss_cli_mc_ctx) (name : list Z) (name_len group : Z)
    (buf : result_buffer) (limit : Z) (r : sss_mc_rec) (vs : list Z) :
  get_ctx_ret ctx = 0 ->
  lookup_record fuel ctx name name_len = Some r ->
  time_now env <= rec_expire r ->
  buffer_wf buf ->
  0 <= data_members (rec_initgr r) <= size buf - start buf ->
  payload ctx r = Ret vs ->
  sss_nss_mc_initgroups_dyn fuel env ctx name name_len group buf limit
  = Ret (Success, ctx,
         {| start := start buf + data_members (rec_initgr r);
            size := size buf;
            groups := take (Z.to_nat (start buf)) (groups buf) ++ vs
                      ++ drop (Z.to_nat (start buf + data_members (rec_initgr r)))
                           (groups buf) |}).
Proof.
  intros Hctx Hrec Hlive Hwf Hfit Hpay.
  rewrite (lookup_found _ _ _ _ _ _ _ _ _ Hctx Hrec).
  now rewrite (parse_fits env ctx r buf limit vs).
Qed.

Lemma C10_limit_ignored_when_payload_fits_witness :
  0 < 5 < 2 + data_members (rec_initgr ann5_rec)
  /\ sss_nss_mc_initgroups_dyn 5 fair_libc ann5_ctx ann 3 0
       (buffer_of 2 [1; 2; 3; 4; 5; 6; 7; 8]) 5
     = Ret (Success, ann5_ctx,
            {| start := 2 + 5;
               size := 8;
               groups := take 2 [1; 2; 3; 4; 5; 6; 7; 8]
                         ++ [2000; 2001; 2002; 2003; 2004]
                         ++ drop 7 [1; 2; 3; 4; 5; 6; 7; 8] |}).
Proof.
  split; [vm_compute; intuition congruence|].
  apply (C10_limit_ignored_when_payload_fits 5 fair_libc ann5_ctx ann 3 0
           (buffer_of 2 [1; 2; 3; 4; 5; 6; 7; 8]) 5 ann5_rec
           [2000; 2001; 2002; 2003; 2004]);
    first [reflexivity | unfold buffer_wf; vm_compute; intuition congruence].
Defined.

(** ** What a call may change in the group array *)

(** The copy loop keeps the capacity and the block length, and changes no
    entry outside the [n] entries from the cursor on. *)
Lemma copy_gids_frame (ctx : sss_cli_mc_ctx) (gids : Z) (n : nat) :
  forall i buf buf',
    copy_gids ctx gids n i buf = Ret buf' ->
    Z.of_nat (length (groups buf)) < 2 ^ 62 ->
    size buf' = size buf
    /\ length (groups buf') = length (groups buf)
    /\ start buf' = start buf + Z.of_nat n
    /\ forall k : nat,
         (Z.of_nat k < start buf \/ start buf + Z.of_nat n <= Z.of_nat k) ->
         groups buf' !! k = groups buf !! k.
Proof.
  induction n as [|n IH]; intros i buf buf'; simpl.
  - intros [= <-] _. split; [|split; [|split]]; first [reflexivity | lia].
  - destruct (SAFEALIGN_COPY_UINT32 ctx _) as [v| | |]; simpl; try discriminate.
    unfold store_gid.
    destruct ((0 <=? start buf) && (start buf <? Z.of_nat (length (groups buf))))
      eqn:Hin; simpl; [|discriminate].
    apply andb_true_iff in Hin as [H0 H1].
    apply Z.leb_le in H0. apply Z.ltb_lt in H1.
    intros Hrun Hbig.
    apply IH in Hrun; simpl in *; [|now rewrite length_insert].
    rewrite long_int_small in Hrun by machine_lia.
    rewrite length_insert in Hrun.
    destruct Hrun as (Hsize & Hlen & Hstart & Hframe).
    repeat split; [assumption | assumption | lia |].
    intros k Hk. rewrite Hframe by lia.
    apply list_lookup_insert_ne. lia.
Qed.

(** A returned call either leaves the group array alone or went through
    [sss_nss_mc_parse_result] with the record the walk stopped at. *)
Lemma lookup_cases (fuel : nat) (env : libc) (ctx : sss_cli_mc_ctx)
    (name : list Z) (name_len group : Z) (buf : result_buffer) (limit : Z)
    (ret : Z) (ctx' : sss_cli_mc_ctx) (buf' : result_buffer) :
  sss_nss_mc_initgroups_dyn fuel env ctx name name_len group buf limit
  = Ret (ret, ctx', buf') ->
  buf' = buf
  \/ exists r, lookup_record fuel ctx name name_len = Some r
               /\ sss_nss_mc_parse_result env ctx r buf limit = Ret (ret, buf').
Proof.
  destruct (Z.eq_dec (get_ctx_ret ctx) 0) as [Hctx|Hctx].
  - destruct (lookup_record fuel ctx name name_len) as [r|] eqn:Hrec.
    + rewrite (lookup_found _ _ _ _ _ _ _ _ _ Hctx Hrec).
      destruct (sss_nss_mc_parse_result env ctx r buf limit)
        as [[ret0 buf0]| | |] eqn:Hparse; simpl; try discriminate.
      intros [= <- _ <-]. right. now exists r.
    + rewrite lookup_attached by assumption.
      unfold lookup_body, lookup_record, first_walk in *.
      rewrite chain_walk_count.
      fold (name_hash ctx name name_len). fold (first_slot ctx name name_len).
      destruct (chain_walk _ _ _ _ _ _ _) as [[ret0|slot [r|]]| | |]; simpl;
        try discriminate.
      * intros [= _ _ <-]. now left.
      * destruct (MC_SLOT_WITHIN_BOUNDS slot (dt_size ctx)); [discriminate|].
        simpl. intros [= _ _ <-]. now left.
      * destruct (negb _); simpl; [|discriminate].
        intros [= _ _ <-]. now left.
  - rewrite lookup_failed_attach by assumption.
    intros [= _ _ <-]. now left.
Qed.

(** Entries below the cursor survive [sss_nss_mc_parse_result] whenever the
    hard limit is unset or not below the cursor. *)
Lemma parse_result_prefix (env : libc) (ctx : sss_cli_mc_ctx) (r : sss_mc_rec)
    (buf : result_buffer) (limit : Z) (ret : Z) (buf' : result_buffer) :
  buffer_wf buf ->
  members_wf r ->
  limit <= 0 \/ start buf <= limit ->
  sss_nss_mc_parse_result env ctx r buf limit = Ret (ret, buf') ->
  forall k : nat, Z.of_nat k < start buf -> groups buf' !! k = groups buf !! k.
Proof.
  intros (Hs & Hlen & Hbig) Hn Hlim. unfold members_wf in Hn.
  unfold sss_nss_mc_parse_result.
  destruct (_ <? time_now env); [now intros [= _ <-]|].
  rewrite long_int_small by machine_lia.
  destruct (_ <? data_members _) eqn:Hsmall.
  - apply Z.ltb_lt in Hsmall.
    destruct (grow_request _ _ _) as [newsize max_ret] eqn:Hreq.
    assert (Hnew : start buf <= newsize < 2 ^ 61).
    { destruct (decide (0 < limit < size buf + data_members (rec_initgr r))).
      - rewrite grow_request_capped in Hreq by (unfold buffer_wf; auto).
        injection Hreq as <- _. machine_lia.
      - rewrite grow_request_uncapped in Hreq by (unfold buffer_wf; auto).
        injection Hreq as <- _. machine_lia. }
    destruct (realloc_ok env (size_t (newsize * sizeof_gid))) eqn:Hok.
    + rewrite realloc_entries by (assumption || machine_lia).
      set (block := take _ (groups buf) ++ _).
      destruct (copy_gids ctx _ _ 0 _) as [buf2| | |] eqn:Hcopy; simpl;
        try discriminate.
      intros [= _ <-] k Hk.
      apply copy_gids_frame in Hcopy; simpl in Hcopy.
      * destruct Hcopy as (_ & _ & _ & Hframe).
        rewrite Hframe by lia. subst block.
        rewrite lookup_app_l by (rewrite length_take; lia).
        apply lookup_take_lt. lia.
      * simpl. subst block.
        rewrite length_app, length_take, length_map, length_seq.
        machine_lia.
    + unfold realloc. rewrite Hok. now intros [= _ <-].
  - destruct (copy_gids ctx _ _ 0 buf) as [buf2| | |] eqn:Hcopy; simpl;
      try discriminate.
    intros [= _ <-] k Hk.
    apply copy_gids_frame in Hcopy; [|machine_lia].
    destruct Hcopy as (_ & _ & _ & Hframe). apply Hframe. lia.
Qed.

(** ** Growth of the group array *)

Section Growth.
Variables (fuel : nat) (env : libc) (ctx : sss_cli_mc_ctx).
Variables (name : list Z) (name_len group : Z).
Variables (buf : result_buffer) (limit : Z) (r : sss_mc_rec) (vs : list Z).

Hypothesis Hctx : get_ctx_ret ctx = 0.
Hypothesis Hrec : lookup_record fuel ctx name name_len = Some r.
Hypothesis Hlive : time_now env <= rec_expire r.
Hypothesis Hwf : buffer_wf buf.
Hypothesis Hn : members_wf r.
Hypothesis Hsmall : size buf - start buf < data_members (rec_initgr r).
Hypothesis Hpay : payload ctx r = Ret vs.

(** X14.  Growth without a cap in the way: the block gets [data_members] more
    entries, the entries below the cursor stay, the payload follows them. *)
Lemma growth_uncapped :
  ~ (0 < limit < size buf + data_members (rec_initgr r)) ->
  realloc_ok env (size_t ((size buf + data_members (rec_initgr r)) * sizeof_gid))
  = true ->
  sss_nss_mc_initgroups_dyn fuel env ctx name name_len group buf limit
  = Ret (Success, ctx,
         {| start := start buf + data_members (rec_initgr r);
            size := size buf + data_members (rec_initgr r);
            groups := take (Z.to_nat (start buf)) (groups buf) ++ vs
                      ++ drop (Z.to_nat (start buf + data_members (rec_initgr r)))
                           (groups buf
                            ++ map (heap_junk env)
                                 (seq (length (groups buf))
                                    (Z.to_nat (data_members (rec_initgr r))))) |}).
Proof using All.
  intros Hlim Hok.
  pose proof Hwf as (Hs & Hlen & Hbig). pose proof Hn as Hn'.
  unfold members_wf in Hn'.
  rewrite (lookup_found _ _ _ _ _ _ _ _ _ Hctx Hrec).
  rewrite (parse_grown env ctx r buf limit
             (size buf + data_members (rec_initgr r))
             (data_members (rec_initgr r)) vs);
    try assumption; try machine_lia;
    [| now apply grow_request_uncapped].
  simpl. apply read_gids_length in Hpay.
  rewrite (take_ge vs) by lia.
  rewrite (take_ge (groups buf) (Z.to_nat (size buf + data_members (rec_initgr r))))
    by lia.
  replace (Z.to_nat (size buf + data_members (rec_initgr r)) - length (groups buf))%nat
    with (Z.to_nat (data_members (rec_initgr r))) by lia.
  reflexivity.
Qed.

(** X15.  Growth stopped by the cap, for a cap between the cursor and the
    cursor plus the payload count: the block has exactly [limit] entries, the
    entries below the cursor stay, the first [limit - start] entries of the
    payload follow them. *)
Lemma growth_capped :
  0 < limit < size buf + data_members (rec_initgr r) ->
  start buf <= limit <= start buf + data_members (rec_initgr r) ->
  realloc_ok env (size_t (limit * sizeof_gid)) = true ->
  sss_nss_mc_initgroups_dyn fuel env ctx name name_len group buf limit
  = Ret (Success, ctx,
         {| start := limit;
            size := limit;
            groups := take (Z.to_nat (start buf)) (groups buf)
                      ++ take (Z.to_nat (limit - start buf)) vs |}).
Proof using All.
  intros Hlim Hrange Hok.
  pose proof Hwf as (Hs & Hlen & Hbig). pose proof Hn as Hn'.
  unfold members_wf in Hn'.
  rewrite (lookup_found _ _ _ _ _ _ _ _ _ Hctx Hrec).
  rewrite (parse_grown env ctx r buf limit limit (limit - start buf) vs);
    try assumption; try machine_lia;
    [| now apply grow_request_capped].
  simpl. rewrite drop_ge.
  - rewrite app_nil_r. do 3 f_equal. lia.
  - rewrite length_app, length_take, length_map, length_seq. lia.
Qed.
End Growth.

(** The growth of property P4: cursor 2, capacity 2, no hard limit, payload
    count 5. *)
Example growth_P4 :
  sss_nss_mc_initgroups_dyn 5 fair_libc ann5_ctx ann 3 0 (buffer_of 2 [7; 8]) 0
  = Ret (Success, ann5_ctx,
         {| start := 7; size := 7;
            groups := [7; 8; 2000; 2001; 2002; 2003; 2004] |}).
Proof. vm_compute. reflexivity. Qed.

(** The capped growth of property P5: the same with hard limit 5. *)
Example growth_P5 :
  sss_nss_mc_initgroups_dyn 5 fair_libc ann5_ctx ann 3 0 (buffer_of 2 [7; 8]) 5
  = Ret (Success, ann5_ctx,
         {| start := 5; size := 5; groups := [7; 8; 2000; 2001; 2002] |}).
Proof. vm_compute. reflexivity. Qed.

(** C4 (defect of the code).  The claim: under a hard limit that stops the
    growth, [hard_limit - start] PAYLOAD entries are copied.  Lines 65-68 take
    [limit - start] as the number of entries to copy without comparing it
    with the count of the record: with cursor 0, capacity 4, hard limit 8 and
    a record of 5 group identifiers the loop copies 8 entries, the last three
    read from the bytes behind the payload (the stored name "ann" and what
    follows it), and the cursor ends at 8. *)
Theorem C4_capped_copy_overruns_payload :
  payload ann5_ctx ann5_rec = Ret [2000; 2001; 2002; 2003; 2004]
  /\ lookup_record 5 ann5_ctx ann 3 = Some ann5_rec
  /\ grow_request (buffer_of 0 [7; 8; 9; 10]) (data_members (rec_initgr ann5_rec)) 8
     = (8, 8)
  /\ sss_nss_mc_initgroups_dyn 5 fair_libc ann5_ctx ann 3 0
       (buffer_of 0 [7; 8; 9; 10]) 8
     = Ret (Success, ann5_ctx,
            {| start := 8; size := 8;
               groups := [2000; 2001; 2002; 2003; 2004;
                          97 + 2 ^ 8 * 110 + 2 ^ 16 * 110; 0; 0] |}).
Proof. repeat split; vm_compute; reflexivity. Qed.

(** X13.  Entries below the cursor survive a call whenever the hard limit is
    unset or not below the cursor. *)
Lemma prefix_preserved (fuel : nat) (env : libc) (ctx : sss_cli_mc_ctx)
    (name : list Z) (name_len group : Z) (buf : result_buffer) (limit : Z)
    (ret : Z) (ctx' : sss_cli_mc_ctx) (buf' : result_buffer) :
  buffer_wf buf ->
  (forall r, lookup_record fuel ctx name name_len = Some r -> members_wf r) ->
  limit <= 0 \/ start buf <= limit ->
  sss_nss_mc_initgroups_dyn fuel env ctx name name_len group buf limit
  = Ret (ret, ctx', buf') ->
  forall k : nat, Z.of_nat k < start buf -> groups buf' !! k = groups buf !! k.
Proof.
  intros Hwf Hmem Hlim Hrun k Hk.
  apply lookup_cases in Hrun as [-> | (r & Hrec & Hparse)]; [reflexivity|].
  eapply parse_result_prefix; eauto.
Qed.

(** Outside the arrays a caller passes under the hard limit: a group array
    whose capacity (8) is above the hard limit (5).  Lines 65-68 take the hard
    limit as the new capacity also when it is below the cursor: a call with
    cursor 2 copies the 5 group identifiers of "ann" and leaves the cursor at
    7, and a second call on the group array so left shrinks the block to 5
    entries. *)
Lemma capacity_above_limit_shrinks :
  let first := {| start := 7; size := 8;
                  groups := [1; 2; 2000; 2001; 2002; 2003; 2004; 8] |} in
  let second := {| start := 7; size := 5;
                   groups := [1; 2; 2000; 2001; 2002] |} in
  sss_nss_mc_initgroups_dyn 5 fair_libc ann5_ctx ann 3 0
    (buffer_of 2 [1; 2; 3; 4; 5; 6; 7; 8]) 5
  = Ret (Success, ann5_ctx, first)
  /\ sss_nss_mc_initgroups_dyn 5 fair_libc ann5_ctx ann 3 0 first 5
     = Ret (Success, ann5_ctx, second)
  /\ groups first !! 5%nat = Some 2003
  /\ groups second !! 5%nat = None.
Proof. cbv zeta. repeat split; vm_compute; reflexivity. Qed.

(** * Further properties of the lookup *)

(** ** What a match means *)

Lemma integrity_check_guarantee_witness :
  gids_addr ann3_rec <= max_addr ann3_ctx
  /\ key_end ann3_rec 3 <= max_addr ann3_ctx.
Proof.
  apply (integrity_check_guarantee 5 ann3_ctx ann 3 ann3_rec).
  reflexivity.
Defined.

(** The record a walk stops at was fetched from the slot it stops at, carries
    the hash of the query, passed the integrity check and compared equal. *)
Lemma walk_exit_match (ctx : sss_cli_mc_ctx) (name : list Z) (name_len hash : Z)
    (s : Z) (r : sss_mc_rec) :
  forall fuel slot prev,
    chain_walk fuel ctx name name_len hash slot prev = Ret (LoopExit s (Some r)) ->
    MC_SLOT_WITHIN_BOUNDS s (dt_size ctx) = true ->
    mc_record ctx s = inr r
    /\ rec_hash1 r = hash
    /\ integrity_violation ctx r name_len = false
    /\ strcmp_eq ctx name (rec_data r + data_name (rec_initgr r)) = Ret true.
Proof.
  induction fuel as [|fuel IH]; intros slot prev; simpl.
  - destruct (negb _) eqn:E; [|discriminate].
    apply negb_true_iff in E. intros [= <- _] Hs. congruence.
  - destruct (negb _) eqn:E.
    + apply negb_true_iff in E. intros [= <- _] Hs. congruence.
    + destruct (mc_record ctx slot) as [err|r0] eqn:Hrec; [discriminate|].
      destruct (negb (hash =? rec_hash1 r0)) eqn:Hh; [apply IH|].
      destruct (integrity_violation ctx r0 name_len) eqn:Hv; [discriminate|].
      destruct (strcmp_eq ctx name (rec_data r0 + data_name (rec_initgr r0)))
        as [[|]| | |] eqn:Hcmp; simpl; try discriminate; [|apply IH].
      intros [= <- <-] _.
      apply negb_false_iff, Z.eqb_eq in Hh. auto.
Qed.

(** A comparison that succeeds on a C string has read exactly its characters
    and a terminator from the table. *)
Lemma strcmp_eq_true_bytes (ctx : sss_cli_mc_ctx) (name : list Z) :
  Forall (fun c => c <> 0) name ->
  forall a,
    strcmp_eq ctx name a = Ret true ->
    (forall (i : nat) (c : Z),
        name !! i = Some c -> read_byte ctx (a + Z.of_nat i) = Ret c)
    /\ read_byte ctx (a + Z.of_nat (length name)) = Ret 0.
Proof.
  induction 1 as [|c name Hc Hname IH]; intros a; simpl.
  - destruct (read_byte ctx a) as [b| | |] eqn:Hb; simpl; try discriminate.
    intros [= Hz]. apply Z.eqb_eq in Hz. subst b.
    rewrite Z.add_0_r. split; [intros i c [=] | assumption].
  - destruct (read_byte ctx a) as [b| | |] eqn:Hb; simpl; try discriminate.
    destruct (c =? 0) eqn:Hc0; [apply Z.eqb_eq in Hc0; contradiction|].
    destruct (b =? c) eqn:Hbc; [|discriminate].
    apply Z.eqb_eq in Hbc. subst b. intros Hrest.
    destruct (IH _ Hrest) as [Hchars Hterm]. split.
    + intros [|i] c'; simpl.
      * intros [= <-]. now rewrite Z.add_0_r.
      * intros Hi. replace (a + Z.of_nat (S i)) with (a + 1 + Z.of_nat i) by lia.
        now apply Hchars.
    + replace (a + Z.of_nat (S (length name)))
        with (a + 1 + Z.of_nat (length name)) by lia.
      assumption.
Qed.

(** [sss_nss_mc_parse_result] returns [0] only for a live record, and any
    other status with the group array as it got it. *)
Lemma parse_result_status (env : libc) (ctx : sss_cli_mc_ctx) (r : sss_mc_rec)
    (buf : result_buffer) (limit ret : Z) (buf' : result_buffer) :
  sss_nss_mc_parse_result env ctx r buf limit = Ret (ret, buf') ->
  (ret = 0 /\ time_now env <= rec_expire r)
  \/ ((ret = EINVAL \/ ret = ENOMEM) /\ buf' = buf).
Proof.
  unfold sss_nss_mc_parse_result.
  destruct (_ <? time_now env) eqn:Hexp.
  - intros [= <- <-]. right. auto.
  - apply Z.ltb_ge in Hexp.
    destruct (_ <? data_members _).
    + destruct (grow_request _ _ _) as [newsize max_ret].
      destruct (realloc _ _ _).
      * destruct (copy_gids _ _ _ _ _); simpl; try discriminate.
        intros [= <- _]. left. auto.
      * intros [= <- <-]. right. auto.
    + destruct (copy_gids _ _ _ _ _); simpl; try discriminate.
      intros [= <- _]. left. auto.
Qed.

(** A walk left through [goto done] carries ENOENT or the errno of a failed
    record fetch. *)
Lemma walk_goto_done (ctx : sss_cli_mc_ctx) (name : list Z) (name_len hash ret : Z) :
  forall fuel slot prev,
    chain_walk fuel ctx name name_len hash slot prev = Ret (GotoDone ret) ->
    ret = ENOENT \/ exists s err, mc_record ctx s = inl err /\ ret = Z.pos err.
Proof.
  induction fuel as [|fuel IH]; intros slot prev; simpl.
  - destruct (negb _); discriminate.
  - destruct (negb _); [discriminate|].
    destruct (mc_record ctx slot) as [err|r0] eqn:Hrec.
    + intros [= <-]. right. eauto.
    + destruct (negb (hash =? rec_hash1 r0)); [apply IH|].
      destruct (integrity_violation ctx r0 name_len); [intros [= <-]; now left|].
      destruct (strcmp_eq ctx name _) as [[|]| | |]; simpl; try discriminate.
      apply IH.
Qed.

(** A returned call either went through [sss_nss_mc_parse_result] with the
    record the walk stopped at, or returns an error with the group array as
    it got it: the error of the attach, ENOENT, or the errno of a failed
    record fetch. *)
Lemma lookup_outcome (fuel : nat) (env : libc) (ctx : sss_cli_mc_ctx)
    (name : list Z) (name_len group : Z) (buf : result_buffer) (limit : Z)
    (ret : Z) (ctx' : sss_cli_mc_ctx) (buf' : result_buffer) :
  sss_nss_mc_initgroups_dyn fuel env ctx name name_len group buf limit
  = Ret (ret, ctx', buf') ->
  (buf' = buf
   /\ ((get_ctx_ret ctx <> 0 /\ ret = get_ctx_ret ctx)
       \/ ret = ENOENT
       \/ exists s err, mc_record ctx s = inl err /\ ret = Z.pos err))
  \/ (get_ctx_ret ctx = 0
      /\ exists r, lookup_record fuel ctx name name_len = Some r
                   /\ sss_nss_mc_parse_result env ctx r buf limit = Ret (ret, buf')).
Proof.
  destruct (Z.eq_dec (get_ctx_ret ctx) 0) as [Hctx|Hctx].
  - destruct (lookup_record fuel ctx name name_len) as [r|] eqn:Hrec.
    + rewrite (lookup_found _ _ _ _ _ _ _ _ _ Hctx Hrec).
      destruct (sss_nss_mc_parse_result env ctx r buf limit)
        as [[ret0 buf0]| | |] eqn:Hparse; simpl; try discriminate.
      intros [= <- _ <-]. right. split; [assumption|]. now exists r.
    + rewrite lookup_attached by assumption.
      unfold lookup_body, lookup_record, first_walk in *.
      rewrite chain_walk_count.
      fold (name_hash ctx name name_len). fold (first_slot ctx name name_len).
      destruct (chain_walk _ _ _ _ _ _ _) as [[ret0|slot [r|]]| | |] eqn:Hw;
        simpl; try discriminate.
      * intros [= <- _ <-]. left. split; [reflexivity|]. right.
        eapply walk_goto_done; eassumption.
      * destruct (MC_SLOT_WITHIN_BOUNDS slot (dt_size ctx)); [discriminate|].
        simpl. intros [= <- _ <-]. left. auto.
      * destruct (negb _); simpl; [|discriminate].
        intros [= <- _ <-]. left. auto.
  - rewrite lookup_failed_attach by assumption.
    intros [= <- _ <-]. left. auto.
Qed.

(** X2.  A call returns Success only for a record the walk stopped at that has
    the hash of the query, is not expired, and whose stored name consists of
    the characters of the query followed by a terminator. *)
Theorem success_means_match (fuel : nat) (env : libc) (ctx : sss_cli_mc_ctx)
    (name : list Z) (name_len group : Z) (buf : result_buffer) (limit : Z)
    (ctx' : sss_cli_mc_ctx) (buf' : result_buffer) :
  Forall (fun c => c <> 0) name ->
  sss_nss_mc_initgroups_dyn fuel env ctx name name_len group buf limit
  = Ret (Success, ctx', buf') ->
  exists r,
    lookup_record fuel ctx name name_len = Some r
    /\ rec_hash1 r = name_hash ctx name name_len
    /\ time_now env <= rec_expire r
    /\ (forall (i : nat) (c : Z),
           name !! i = Some c ->
           read_byte ctx (rec_data r + data_name (rec_initgr r) + Z.of_nat i) = Ret c)
    /\ read_byte ctx (rec_data r + data_name (rec_initgr r) + Z.of_nat (length name))
       = Ret 0.
Proof.
  intros Hname Hrun.
  apply lookup_outcome in Hrun
    as [(_ & [(Hne & Hret) | [Hret | (s & err & _ & Hret)]])
       | (_ & r & Hrec & Hparse)];
    try (unfold Success, EOK, ENOENT in *; congruence || lia).
  exists r. split; [assumption|].
  apply parse_result_status in Hparse
    as [(_ & Hlive) | ([Hret | Hret] & _)]; try discriminate.
  unfold lookup_record in Hrec.
  destruct (first_walk fuel ctx name name_len) as [[ret|s [r0|]]| | |] eqn:Hw;
    try discriminate.
  destruct (MC_SLOT_WITHIN_BOUNDS s (dt_size ctx)) eqn:Hs; [|discriminate].
  injection Hrec as ->.
  destruct (walk_exit_match _ _ _ _ _ _ _ _ _ Hw Hs) as (_ & Hhash & _ & Hcmp).
  destruct (strcmp_eq_true_bytes ctx name Hname _ Hcmp) as [Hchars Hterm].
  auto.
Qed.

Lemma success_means_match_witness :
  exists r,
    lookup_record 5 ann3_ctx ann 3 = Some r
    /\ rec_hash1 r = name_hash ann3_ctx ann 3
    /\ time_now fair_libc <= rec_expire r
    /\ (forall (i : nat) (c : Z),
           ann !! i = Some c ->
           read_byte ann3_ctx (rec_data r + data_name (rec_initgr r) + Z.of_nat i)
           = Ret c)
    /\ read_byte ann3_ctx
         (rec_data r + data_name (rec_initgr r) + Z.of_nat (length ann))
       = Ret 0.
Proof.
  apply (success_means_match 5 fair_libc ann3_ctx ann 3 0 (buffer_of 0 (zeros 4)) 0
           ann3_ctx {| start := 3; size := 4; groups := [1000; 1001; 1002; 0] |}).
  - repeat constructor; discriminate.
  - vm_compute. reflexivity.
Defined.

(** X3.  A call that returns any status other than Success returns the group
    array exactly as it got it: cursor, capacity and contents. *)
Theorem failure_keeps_buffer (fuel : nat) (env : libc) (ctx : sss_cli_mc_ctx)
    (name : list Z) (name_len group : Z) (buf : result_buffer) (limit : Z)
    (ret : Z) (ctx' : sss_cli_mc_ctx) (buf' : result_buffer) :
  sss_nss_mc_initgroups_dyn fuel env ctx name name_len group buf limit
  = Ret (ret, ctx', buf') ->
  ret <> Success ->
  buf' = buf.
Proof.
  intros Hrun Hret.
  apply lookup_outcome in Hrun as [(Hbuf & _) | (_ & r & _ & Hparse)];
    [assumption|].
  apply parse_result_status in Hparse as [(Hzero & _) | (_ & Hbuf)];
    [contradiction | assumption].
Qed.

Lemma failure_keeps_buffer_witness :
  buffer_of 2 [7; 8] = buffer_of 2 [7; 8].
Proof.
  apply (failure_keeps_buffer 5 (toy_libc 100 8) ann5_ctx ann 3 0
           (buffer_of 2 [7; 8]) 0 AllocationFailure ann5_ctx (buffer_of 2 [7; 8])).
  - vm_compute. reflexivity.
  - discriminate.
Defined.

(** ** Along the collision chain *)

(** X4.  When the fetch of a record fails at a slot the lookup reaches, the
    call returns the errno of the fetch (not NotFound), with the group array
    unchanged and the reader count released. *)
Theorem record_fetch_error_is_returned (n fuel : nat) (env : libc)
    (ctx : sss_cli_mc_ctx) (name : list Z) (name_len group : Z)
    (buf : result_buffer) (limit : Z)
    (slot : Z) (prev : option sss_mc_rec) (err : positive) :
  get_ctx_ret ctx = 0 ->
  follow n ctx name name_len (name_hash ctx name name_len)
    (first_slot ctx name name_len) None = Some (slot, prev) ->
  MC_SLOT_WITHIN_BOUNDS slot (dt_size ctx) = true ->
  mc_record ctx slot = inl err ->
  (n < fuel)%nat ->
  sss_nss_mc_initgroups_dyn fuel env ctx name name_len group buf limit
  = Ret (Z.pos err, ctx, buf).
Proof.
  intros Hctx Hfollow Hslot Hrec Hfuel.
  apply lookup_goto_done; [assumption|].
  unfold first_walk.
  replace fuel with (n + S (fuel - n - 1))%nat by lia.
  rewrite (walk_follow _ _ _ _ _ _ _ _ _ _ Hfollow).
  cbn [chain_walk]. now rewrite Hslot, Hrec.
Qed.

Lemma record_fetch_error_is_returned_witness :
  sss_nss_mc_initgroups_dyn 2 fair_libc eio_ctx ann 3 0 (buffer_of 1 [7; 7]) 0
  = Ret (5, eio_ctx, buffer_of 1 [7; 7]).
Proof.
  apply (record_fetch_error_is_returned 1 2 fair_libc eio_ctx ann 3 0
           (buffer_of 1 [7; 7]) 0 60 (Some nna_rec) 5%positive);
    first [reflexivity | lia].
Defined.

(** An iteration at a candidate that has the hash of the query, passes the
    integrity check and compares equal leaves the loop through [break]. *)
Lemma walk_stops_at_match (ctx : sss_cli_mc_ctx) (name : list Z)
    (name_len hash : Z) (fuel : nat) (slot : Z) (prev : option sss_mc_rec)
    (r : sss_mc_rec) :
  MC_SLOT_WITHIN_BOUNDS slot (dt_size ctx) = true ->
  mc_record ctx slot = inr r ->
  rec_hash1 r = hash ->
  integrity_violation ctx r name_len = false ->
  strcmp_eq ctx name (rec_data r + data_name (rec_initgr r)) = Ret true ->
  chain_walk (S fuel) ctx name name_len hash slot prev = Ret (LoopExit slot (Some r)).
Proof.
  intros Hslot Hrec Hhash Hviol Hcmp. simpl.
  rewrite Hslot, Hrec. simpl.
  rewrite Hhash, Z.eqb_refl. simpl.
  now rewrite Hviol, Hcmp.
Qed.

(** X5.  A record [n] links down the chain, behind candidates that were passed
    over for their hash or their name, is found when it has the hash of the
    query, passes the integrity check and compares equal: the call is then
    [sss_nss_mc_parse_result] on that record, with the context as before. *)
Theorem chain_is_followed_to_the_match (n fuel : nat) (env : libc)
    (ctx : sss_cli_mc_ctx) (name : list Z) (name_len group : Z)
    (buf : result_buffer) (limit : Z)
    (slot : Z) (prev : option sss_mc_rec) (r : sss_mc_rec) :
  get_ctx_ret ctx = 0 ->
  follow n ctx name name_len (name_hash ctx name name_len)
    (first_slot ctx name name_len) None = Some (slot, prev) ->
  MC_SLOT_WITHIN_BOUNDS slot (dt_size ctx) = true ->
  mc_record ctx slot = inr r ->
  rec_hash1 r = name_hash ctx name name_len ->
  integrity_violation ctx r name_len = false ->
  strcmp_eq ctx name (rec_data r + data_name (rec_initgr r)) = Ret true ->
  (n < fuel)%nat ->
  lookup_record fuel ctx name name_len = Some r
  /\ sss_nss_mc_initgroups_dyn fuel env ctx name name_len group buf limit
     = (let* (ret, buf') := sss_nss_mc_parse_result env ctx r buf limit in
        Ret (ret, ctx, buf')).
Proof.
  intros Hctx Hfollow Hslot Hrec Hhash Hviol Hcmp Hfuel.
  assert (Hfound : lookup_record fuel ctx name name_len = Some r).
  { unfold lookup_record, first_walk.
    replace fuel with (n + S (fuel - n - 1))%nat by lia.
    rewrite (walk_follow _ _ _ _ _ _ _ _ _ _ Hfollow).
    rewrite (walk_stops_at_match _ _ _ _ _ _ _ _ Hslot Hrec Hhash Hviol Hcmp).
    now rewrite Hslot. }
  split; [assumption|].
  now apply lookup_found.
Qed.

Lemma chain_is_followed_to_the_match_witness :
  lookup_record 2 collide_ctx ann 3 = Some second_rec
  /\ sss_nss_mc_initgroups_dyn 2 fair_libc collide_ctx ann 3 0
       (buffer_of 0 (zeros 4)) 0
     = (let* (ret, buf') :=
          sss_nss_mc_parse_result fair_libc collide_ctx second_rec
            (buffer_of 0 (zeros 4)) 0 in
        Ret (ret, collide_ctx, buf')).
Proof.
  apply (chain_is_followed_to_the_match 1 2 fair_libc collide_ctx ann 3 0
           (buffer_of 0 (zeros 4)) 0 60 (Some nna_rec) second_rec);
    first [reflexivity | lia].
Defined.

(** As long as candidates are passed over, the walk needs fuel. *)
Lemma walk_short_of_fuel (ctx : sss_cli_mc_ctx) (name : list Z) (name_len hash : Z) :
  forall n fuel slot prev s p,
    follow n ctx name name_len hash slot prev = Some (s, p) ->
    (fuel < n)%nat ->
    chain_walk fuel ctx name name_len hash slot prev = Spin.
Proof.
  induction n as [|n IH]; intros fuel slot prev s p Hfollow Hfuel; [lia|].
  simpl in Hfollow.
  destruct (passed_over ctx name name_len hash slot) as [r|] eqn:Hp;
    [|discriminate].
  destruct fuel as [|fuel].
  - unfold passed_over in Hp. simpl.
    destruct (MC_SLOT_WITHIN_BOUNDS slot (dt_size ctx)); [reflexivity|discriminate].
  - rewrite (walk_passed_over _ _ _ _ _ _ _ _ Hp).
    eapply IH; [eassumption | lia].
Qed.

(** A walk that comes back to a slot it left never ends. *)
Lemma walk_cycle (ctx : sss_cli_mc_ctx) (name : list Z) (name_len hash : Z)
    (n : nat) (slot : Z) (p0 p1 : option sss_mc_rec) :
  (0 < n)%nat ->
  follow n ctx name name_len hash slot p0 = Some (slot, p1) ->
  forall fuel prev, chain_walk fuel ctx name name_len hash slot prev = Spin.
Proof.
  intros Hn Hfollow.
  assert (Hany : forall prev,
             follow n ctx name name_len hash slot prev = Some (slot, p1)).
  { intros prev. destruct n as [|n]; [lia|]. exact Hfollow. }
  induction fuel as [fuel IH] using lt_wf_ind. intros prev.
  destruct (Nat.lt_ge_cases fuel n) as [Hlt|Hge].
  - eapply walk_short_of_fuel; [apply Hany | assumption].
  - replace fuel with (n + (fuel - n))%nat by lia.
    rewrite (walk_follow _ _ _ _ _ _ _ _ _ _ (Hany prev)).
    apply IH. lia.
Qed.

(** X6.  The walk has no guard against cycles: when the chain of the query
    comes back, after candidates that are passed over, to a slot it has
    already left, the call never returns, whatever the fuel. *)
Theorem cyclic_chain_never_returns (m n : nat) (env : libc)
    (ctx : sss_cli_mc_ctx) (name : list Z) (name_len group : Z)
    (buf : result_buffer) (limit : Z)
    (slot : Z) (p0 p1 : option sss_mc_rec) :
  get_ctx_ret ctx = 0 ->
  follow m ctx name name_len (name_hash ctx name name_len)
    (first_slot ctx name name_len) None = Some (slot, p0) ->
  (0 < n)%nat ->
  follow n ctx name name_len (name_hash ctx name name_len) slot p0
  = Some (slot, p1) ->
  forall fuel,
    sss_nss_mc_initgroups_dyn fuel env ctx name name_len group buf limit = Spin.
Proof.
  intros Hctx Hreach Hn Hcycle fuel.
  rewrite lookup_attached by assumption.
  unfold lookup_body. cbv zeta. rewrite chain_walk_count.
  change (chain_walk fuel ctx name name_len _ _ None)
    with (chain_walk fuel ctx name name_len (name_hash ctx name name_len)
            (first_slot ctx name name_len) None).
  destruct (Nat.lt_ge_cases fuel m) as [Hlt|Hge].
  - now rewrite (walk_short_of_fuel _ _ _ _ _ _ _ _ _ _ Hreach Hlt).
  - replace fuel with (m + (fuel - m))%nat by lia.
    rewrite (walk_follow _ _ _ _ _ _ _ _ _ _ Hreach).
    now rewrite (walk_cycle _ _ _ _ _ _ _ _ Hn Hcycle).
Qed.

Lemma cyclic_chain_never_returns_witness :
  sss_nss_mc_initgroups_dyn 1000 fair_libc loop_ctx ann 3 0 (buffer_of 0 (zeros 4)) 0
  = Spin.
Proof.
  apply (cyclic_chain_never_returns 0 1 fair_libc loop_ctx ann 3 0
           (buffer_of 0 (zeros 4)) 0 0 None (Some loop_rec));
    first [reflexivity | lia].
Defined.

(** The comparison of names waits for nothing. *)
Lemma strcmp_eq_not_spin (ctx : sss_cli_mc_ctx) (name : list Z) :
  forall a, strcmp_eq ctx name a <> Spin.
Proof.
  induction name as [|c name IH]; intros a; simpl; unfold read_byte;
    destruct (_ && _); simpl; try discriminate.
  destruct (c =? 0); [discriminate|].
  destruct (_ =? c); [apply IH | discriminate].
Qed.

(** With every link pointing forward the walk ends within [dt_size] steps. *)
Lemma walk_forward_ends (ctx : sss_cli_mc_ctx) (name : list Z) (name_len hash : Z) :
  (forall slot r, mc_record ctx slot = inr r -> slot < rec_next r) ->
  forall fuel slot prev,
    (0 <= slot -> dt_size ctx - slot <= Z.of_nat fuel) ->
    chain_walk fuel ctx name name_len hash slot prev <> Spin.
Proof.
  intros Hfwd.
  induction fuel as [|fuel IH]; intros slot prev Hroom; cbn [chain_walk].
  - destruct (negb _) eqn:E; [discriminate|].
    apply negb_false_iff in E. unfold MC_SLOT_WITHIN_BOUNDS in E.
    apply andb_true_iff in E as [E0 E]. apply Z.leb_le in E0. apply Z.ltb_lt in E.
    lia.
  - destruct (negb _) eqn:E; [discriminate|].
    apply negb_false_iff in E. unfold MC_SLOT_WITHIN_BOUNDS in E.
    apply andb_true_iff in E as [E0 _]. apply Z.leb_le in E0.
    destruct (mc_record ctx slot) as [err|r] eqn:Hrec; [discriminate|].
    apply Hfwd in Hrec.
    assert (Hnext : 0 <= sss_nss_mc_next_slot_with_hash r hash ->
                    dt_size ctx - sss_nss_mc_next_slot_with_hash r hash
                    <= Z.of_nat fuel)
      by (unfold sss_nss_mc_next_slot_with_hash; lia).
    destruct (negb (hash =? rec_hash1 r)); [now apply IH|].
    destruct (integrity_violation ctx r name_len); [discriminate|].
    destruct (strcmp_eq ctx name _) as [[|]| | |] eqn:Hcmp; simpl;
      try discriminate.
    + now apply IH.
    + now apply strcmp_eq_not_spin in Hcmp.
Qed.

(** Neither the copy loop nor [sss_nss_mc_parse_result] waits for anything. *)
Lemma copy_gids_not_spin (ctx : sss_cli_mc_ctx) (gids : Z) :
  forall n i buf, copy_gids ctx gids n i buf <> Spin.
Proof.
  induction n as [|n IH]; intros i buf; simpl; [discriminate|].
  destruct (SAFEALIGN_COPY_UINT32 ctx _) as [v| | |] eqn:Hrd; simpl;
    try discriminate.
  - unfold store_gid. destruct (_ && _); simpl; [apply IH | discriminate].
  - unfold SAFEALIGN_COPY_UINT32, read_byte in Hrd.
    repeat (destruct (_ && _); simpl in Hrd; try discriminate).
Qed.

Lemma parse_result_not_spin (env : libc) (ctx : sss_cli_mc_ctx) (r : sss_mc_rec)
    (buf : result_buffer) (limit : Z) :
  sss_nss_mc_parse_result env ctx r buf limit <> Spin.
Proof.
  unfold sss_nss_mc_parse_result.
  destruct (_ <? time_now env); [discriminate|].
  destruct (_ <? data_members _).
  - destruct (grow_request _ _ _) as [newsize max_ret].
    destruct (realloc _ _ _); [|discriminate].
    destruct (copy_gids ctx _ _ 0 _) eqn:Hc; simpl; try discriminate.
    now apply copy_gids_not_spin in Hc.
  - destruct (copy_gids ctx _ _ 0 _) eqn:Hc; simpl; try discriminate.
    now apply copy_gids_not_spin in Hc.
Qed.

(** X7.  In an arena all of whose links point forward (each record's link is
    above its own slot) the call ends within [dt_size] iterations: with that
    much fuel it never runs out of it. *)
Theorem forward_links_terminate (fuel : nat) (env : libc) (ctx : sss_cli_mc_ctx)
    (name : list Z) (name_len group : Z) (buf : result_buffer) (limit : Z) :
  (forall slot r, mc_record ctx slot = inr r -> slot < rec_next r) ->
  dt_size ctx <= Z.of_nat fuel ->
  sss_nss_mc_initgroups_dyn fuel env ctx name name_len group buf limit <> Spin.
Proof.
  intros Hfwd Hfuel.
  destruct (Z.eq_dec (get_ctx_ret ctx) 0) as [Hctx|Hctx].
  - rewrite lookup_attached by assumption.
    unfold lookup_body. cbv zeta. rewrite chain_walk_count.
    destruct (chain_walk fuel ctx name name_len _ _ None)
      as [[ret|s [r|]]| | |] eqn:Hw; simpl; try discriminate.
    + destruct (negb _); simpl; [discriminate|].
      rewrite parse_result_count.
      destruct (sss_nss_mc_parse_result env ctx r buf limit) as [[ret b]| | |]
        eqn:Hp; simpl; try discriminate.
      now apply parse_result_not_spin in Hp.
    + destruct (negb _); simpl; discriminate.
    + exfalso. revert Hw. apply walk_forward_ends; [assumption | lia].
  - rewrite lookup_failed_attach by assumption. discriminate.
Qed.

Lemma forward_links_terminate_witness :
  sss_nss_mc_initgroups_dyn 120 fair_libc collide_ctx ann 3 0 (buffer_of 0 (zeros 4)) 0
  <> Spin.
Proof.
  apply (forward_links_terminate 120 fair_libc collide_ctx ann 3 0
           (buffer_of 0 (zeros 4)) 0).
  - intros slot r. simpl.
    destruct (slot =? 0) eqn:E0.
    { apply Z.eqb_eq in E0. subst slot. intros [= <-]. vm_compute. reflexivity. }
    destruct (slot =? 60) eqn:E1; [|discriminate].
    apply Z.eqb_eq in E1. subst slot. intros [= <-]. vm_compute. reflexivity.
  - vm_compute. discriminate.
Defined.

(** ** The group array across a call *)

(** The three ways [sss_nss_mc_parse_result] leaves a well-formed group
    array: untouched; filled in place; or reallocated to the requested
    capacity and filled. *)
Lemma parse_result_shape (env : libc) (ctx : sss_cli_mc_ctx) (r : sss_mc_rec)
    (buf : result_buffer) (limit ret : Z) (buf' : result_buffer) :
  buffer_wf buf ->
  members_wf r ->
  sss_nss_mc_parse_result env ctx r buf limit = Ret (ret, buf') ->
  buf' = buf
  \/ (data_members (rec_initgr r) <= size buf - start buf
      /\ size buf' = size buf
      /\ length (groups buf') = length (groups buf)
      /\ start buf' = start buf + data_members (rec_initgr r))
  \/ (size buf - start buf < data_members (rec_initgr r)
      /\ exists newsize max_ret,
           grow_request buf (data_members (rec_initgr r)) limit = (newsize, max_ret)
           /\ size buf' = newsize
           /\ Z.of_nat (length (groups buf')) = newsize
           /\ start buf' = start buf + Z.max 0 max_ret).
Proof.
  intros (Hs & Hlen & Hbig) Hn. unfold members_wf in Hn.
  unfold sss_nss_mc_parse_result.
  destruct (_ <? time_now env); [intros [= _ <-]; now left|].
  rewrite long_int_small by machine_lia.
  destruct (_ <? data_members _) eqn:Hsmall.
  - apply Z.ltb_lt in Hsmall.
    destruct (grow_request _ _ _) as [newsize max_ret] eqn:Hreq.
    assert (Hnew : 0 <= newsize < 2 ^ 61).
    { destruct (decide (0 < limit < size buf + data_members (rec_initgr r))).
      - rewrite grow_request_capped in Hreq by (unfold buffer_wf; auto).
        injection Hreq as <- _. machine_lia.
      - rewrite grow_request_uncapped in Hreq by (unfold buffer_wf; auto).
        injection Hreq as <- _. machine_lia. }
    destruct (realloc_ok env (size_t (newsize * sizeof_gid))) eqn:Hok.
    + rewrite realloc_entries by (assumption || machine_lia).
      set (block := take _ (groups buf) ++ _).
      assert (Hblock : length block = Z.to_nat newsize).
      { subst block. rewrite length_app, length_take, length_map, length_seq. lia. }
      destruct (copy_gids ctx _ _ 0 _) as [buf2| | |] eqn:Hcopy; simpl;
        try discriminate.
      intros [= _ <-].
      apply copy_gids_frame in Hcopy; simpl in Hcopy;
        [|simpl; rewrite Hblock; machine_lia].
      destruct Hcopy as (Hsize & Hlen2 & Hstart & _).
      right. right. split; [assumption|].
      exists newsize, max_ret. repeat split; try assumption; lia.
    + unfold realloc. rewrite Hok. intros [= _ <-]. now left.
  - apply Z.ltb_ge in Hsmall.
    destruct (copy_gids ctx _ _ 0 buf) as [buf2| | |] eqn:Hcopy; simpl;
      try discriminate.
    intros [= _ <-].
    apply copy_gids_frame in Hcopy; [|machine_lia].
    destruct Hcopy as (Hsize & Hlen2 & Hstart & _).
    right. left. repeat split; try assumption; lia.
Qed.

(** X8.  A call on a well-formed group array whose cursor is not above a set
    hard limit leaves a well-formed group array: the cursor has not moved
    back and is within the capacity, and the capacity is the length of the
    block. *)
Theorem buffer_stays_well_formed (fuel : nat) (env : libc) (ctx : sss_cli_mc_ctx)
    (name : list Z) (name_len group : Z) (buf : result_buffer) (limit : Z)
    (ret : Z) (ctx' : sss_cli_mc_ctx) (buf' : result_buffer) :
  buffer_wf buf ->
  (forall r, lookup_record fuel ctx name name_len = Some r -> members_wf r) ->
  limit <= 0 \/ start buf <= limit ->
  sss_nss_mc_initgroups_dyn fuel env ctx name name_len group buf limit
  = Ret (ret, ctx', buf') ->
  0 <= start buf <= start buf'
  /\ start buf' <= size buf'
  /\ size buf' = Z.of_nat (length (groups buf')).
Proof.
  intros Hwf Hmem Hlim Hrun.
  pose proof Hwf as (Hs & Hlen & Hbig).
  apply lookup_cases in Hrun as [-> | (r & Hrec & Hparse)]; [lia|].
  specialize (Hmem r Hrec). pose proof Hmem as Hn. unfold members_wf in Hn.
  apply parse_result_shape in Hparse
    as [-> | [(Hfit & Hsize & Hlen' & Hstart)
             | (Hsmall & newsize & max_ret & Hreq & Hsize & Hlen' & Hstart)]];
    try assumption; [lia | lia |].
  destruct (decide (0 < limit < size buf + data_members (rec_initgr r))).
  - rewrite grow_request_capped in Hreq by assumption.
    injection Hreq as <- <-. lia.
  - rewrite grow_request_uncapped in Hreq by assumption.
    injection Hreq as <- <-. lia.
Qed.

Lemma buffer_stays_well_formed_witness :
  let buf' := {| start := 5; size := 5; groups := [7; 8; 2000; 2001; 2002] |} in
  0 <= start (buffer_of 2 [7; 8]) <= start buf'
  /\ start buf' <= size buf'
  /\ size buf' = Z.of_nat (length (groups buf')).
Proof.
  apply (buffer_stays_well_formed 5 fair_libc ann5_ctx ann 3 0 (buffer_of 2 [7; 8]) 5
           Success ann5_ctx).
  - unfold buffer_wf. vm_compute. intuition congruence.
  - intros r [= <-]. unfold members_wf. vm_compute. intuition congruence.
  - right. vm_compute. discriminate.
  - vm_compute. reflexivity.
Defined.

(** X9.  A group array whose capacity is within a set hard limit stays within
    it: after any call the capacity, and with it the cursor, is at most the
    limit. *)
Theorem hard_limit_is_kept (fuel : nat) (env : libc) (ctx : sss_cli_mc_ctx)
    (name : list Z) (name_len group : Z) (buf : result_buffer) (limit : Z)
    (ret : Z) (ctx' : sss_cli_mc_ctx) (buf' : result_buffer) :
  buffer_wf buf ->
  (forall r, lookup_record fuel ctx name name_len = Some r -> members_wf r) ->
  0 < limit ->
  size buf <= limit ->
  sss_nss_mc_initgroups_dyn fuel env ctx name name_len group buf limit
  = Ret (ret, ctx', buf') ->
  start buf' <= size buf' <= limit.
Proof.
  intros Hwf Hmem Hpos Hcap Hrun.
  pose proof Hwf as (Hs & Hlen & Hbig).
  apply lookup_cases in Hrun as [-> | (r & Hrec & Hparse)]; [lia|].
  specialize (Hmem r Hrec). pose proof Hmem as Hn. unfold members_wf in Hn.
  apply parse_result_shape in Hparse
    as [-> | [(Hfit & Hsize & Hlen' & Hstart)
             | (Hsmall & newsize & max_ret & Hreq & Hsize & Hlen' & Hstart)]];
    try assumption; [lia | lia |].
  destruct (decide (0 < limit < size buf + data_members (rec_initgr r))).
  - rewrite grow_request_capped in Hreq by assumption.
    injection Hreq as <- <-. lia.
  - rewrite grow_request_uncapped in Hreq by assumption.
    injection Hreq as <- <-. lia.
Qed.

Lemma hard_limit_is_kept_witness :
  let buf' := {| start := 5; size := 5; groups := [7; 8; 2000; 2001; 2002] |} in
  start buf' <= size buf' <= 5.
Proof.
  apply (hard_limit_is_kept 5 fair_libc ann5_ctx ann 3 0 (buffer_of 2 [7; 8]) 5
           Success ann5_ctx).
  - unfold buffer_wf. vm_compute. intuition congruence.
  - intros r [= <-]. unfold members_wf. vm_compute. intuition congruence.
  - reflexivity.
  - vm_compute. discriminate.
  - vm_compute. reflexivity.
Defined.

(** ** The frame of a call under the hard limit

    The hard limit is the maximum total length of the group array: a caller
    passes a well-formed array whose capacity is within the limit, or no
    limit. *)

(** What [sss_nss_mc_parse_result] leaves of such an array: every entry of
    the old block outside the part between the old and the new cursor; a
    capacity that is not smaller and is still within the limit. *)
Lemma parse_result_frame (env : libc) (ctx : sss_cli_mc_ctx) (r : sss_mc_rec)
    (buf : result_buffer) (limit : Z) (ret : Z) (buf' : result_buffer) :
  buffer_wf buf ->
  members_wf r ->
  limit <= 0 \/ size buf <= limit ->
  sss_nss_mc_parse_result env ctx r buf limit = Ret (ret, buf') ->
  (forall k : nat,
      Z.of_nat k < start buf \/ start buf' <= Z.of_nat k ->
      (k < length (groups buf))%nat ->
      groups buf' !! k = groups buf !! k)
  /\ 0 <= start buf <= start buf'
  /\ start buf' <= size buf'
  /\ size buf' = Z.of_nat (length (groups buf'))
  /\ size buf <= size buf'
  /\ (limit <= 0 \/ size buf' <= limit).
Proof.
  intros (Hs & Hlen & Hbig) Hn Hlim. unfold members_wf in Hn.
  unfold sss_nss_mc_parse_result.
  destruct (_ <? time_now env);
    [intros [= _ <-]; repeat split; auto; lia|].
  rewrite long_int_small by machine_lia.
  destruct (_ <? data_members _) eqn:Hsmall.
  - apply Z.ltb_lt in Hsmall.
    destruct (grow_request _ _ _) as [newsize max_ret] eqn:Hreq.
    assert (Hnew : size buf <= newsize < 2 ^ 61
                   /\ 0 <= max_ret /\ start buf + max_ret <= newsize
                   /\ (limit <= 0 \/ newsize <= limit)).
    { destruct (decide (0 < limit < size buf + data_members (rec_initgr r))).
      - rewrite grow_request_capped in Hreq by (unfold buffer_wf; auto).
        injection Hreq as <- <-. machine_lia.
      - rewrite grow_request_uncapped in Hreq by (unfold buffer_wf; auto).
        injection Hreq as <- <-. machine_lia. }
    destruct Hnew as (Hnew & Hmax & Hroom & Hcap).
    destruct (realloc_ok env (size_t (newsize * sizeof_gid))) eqn:Hok.
    + rewrite realloc_entries by (assumption || machine_lia).
      set (block := take _ (groups buf) ++ _).
      assert (Hblock : length block = Z.to_nat newsize).
      { subst block. rewrite length_app, length_take, length_map, length_seq. lia. }
      destruct (copy_gids ctx _ _ 0 _) as [buf2| | |] eqn:Hcopy; simpl;
        try discriminate.
      intros [= _ <-].
      apply copy_gids_frame in Hcopy; simpl in Hcopy;
        [|simpl; rewrite Hblock; machine_lia].
      destruct Hcopy as (Hsize & Hlen2 & Hstart & Hframe).
      rewrite Z2Nat.id in Hstart, Hframe by lia.
      split; [|repeat split; lia].
      intros k Hk Hin. rewrite Hframe by lia. subst block.
      rewrite lookup_app_l by (rewrite length_take; lia).
      apply lookup_take_lt. lia.
    + unfold realloc. rewrite Hok. intros [= _ <-]. repeat split; auto; lia.
  - apply Z.ltb_ge in Hsmall.
    destruct (copy_gids ctx _ _ 0 buf) as [buf2| | |] eqn:Hcopy; simpl;
      try discriminate.
    intros [= _ <-].
    apply copy_gids_frame in Hcopy; [|machine_lia].
    destruct Hcopy as (Hsize & Hlen2 & Hstart & Hframe).
    rewrite Z2Nat.id in Hstart, Hframe by lia.
    split; [|repeat split; lia].
    intros k Hk _. apply Hframe. lia.
Qed.

(** What [sss_nss_mc_parse_result] writes between the old and the new
    cursor when it returns [0] and the limit, if set, does not let the copy
    run past the record: the group identifiers of the record, in order, all
    of them when no limit is set. *)
Lemma parse_result_tail (env : libc) (ctx : sss_cli_mc_ctx) (r : sss_mc_rec)
    (buf : result_buffer) (limit : Z) (buf' : result_buffer) (vs : list Z) :
  buffer_wf buf ->
  members_wf r ->
  limit <= 0 \/ size buf <= limit ->
  limit <= 0 \/ limit <= start buf + data_members (rec_initgr r) ->
  payload ctx r = Ret vs ->
  sss_nss_mc_parse_result env ctx r buf limit = Ret (Success, buf') ->
  start buf' - start buf <= data_members (rec_initgr r)
  /\ (limit <= 0 -> start buf' = start buf + data_members (rec_initgr r))
  /\ forall i : nat,
       start buf + Z.of_nat i < start buf' ->
       groups buf' !! (Z.to_nat (start buf) + i)%nat = vs !! i.
Proof.
  intros Hwf Hn Hlim Hcut Hpay Hparse.
  pose proof Hwf as (Hs & Hlen & Hbig). pose proof Hn as Hn'.
  unfold members_wf in Hn'.
  pose proof (read_gids_length _ _ _ _ _ Hpay) as Hvs.
  assert (Htail : forall (m : Z) (rest : list Z) (i : nat),
            0 <= m <= data_members (rec_initgr r) ->
            Z.of_nat i < m ->
            (take (Z.to_nat (start buf)) (groups buf)
             ++ take (Z.to_nat m) vs ++ rest) !! (Z.to_nat (start buf) + i)%nat
            = vs !! i).
  { intros m rest i Hm Hi.
    rewrite lookup_app_r by (rewrite length_take; lia).
    rewrite length_take.
    replace (Z.to_nat (start buf) + i
             - Z.to_nat (start buf) `min` length (groups buf))%nat with i by lia.
    rewrite lookup_app_l by (rewrite length_take; lia).
    apply lookup_take_lt. lia. }
  destruct (decide (rec_expire r < time_now env)) as [Hexp|Hlive].
  { rewrite parse_expired in Hparse by assumption. discriminate. }
  destruct (decide (size buf - start buf < data_members (rec_initgr r)))
    as [Hsmall|Hfit].
  - destruct (grow_request buf (data_members (rec_initgr r)) limit)
      as [newsize max_ret] eqn:Hreq.
    assert (Hnew : 0 <= max_ret <= data_members (rec_initgr r)
                   /\ start buf + max_ret <= newsize < 2 ^ 61
                   /\ (limit <= 0 -> max_ret = data_members (rec_initgr r))).
    { destruct (decide (0 < limit < size buf + data_members (rec_initgr r))).
      - rewrite grow_request_capped in Hreq by assumption.
        injection Hreq as <- <-. machine_lia.
      - rewrite grow_request_uncapped in Hreq by assumption.
        injection Hreq as <- <-. machine_lia. }
    destruct Hnew as (Hmax & Hroom & Hall).
    destruct (realloc_ok env (size_t (newsize * sizeof_gid))) eqn:Hok.
    + rewrite (parse_grown env ctx r buf limit newsize max_ret vs) in Hparse
        by (assumption || lia).
      injection Hparse as <-. simpl.
      split; [lia|]. split; [intros Hl; rewrite Hall by assumption; reflexivity|].
      intros i Hi. apply (Htail max_ret); lia.
    + rewrite parse_alloc_failure in Hparse;
        [discriminate | lia | rewrite long_int_small by machine_lia; lia
        | now rewrite Hreq].
  - rewrite (parse_fits env ctx r buf limit vs) in Hparse by (assumption || lia).
    injection Hparse as <-. simpl.
    split; [lia|]. split; [reflexivity|].
    intros i Hi.
    rewrite <- (take_ge vs (Z.to_nat (data_members (rec_initgr r)))) at 1 by lia.
    apply (Htail (data_members (rec_initgr r))); lia.
Qed.

(** C5.  On the group arrays a caller passes under the hard limit (well
    formed, the capacity within the limit or no limit set) a lookup call
    never modifies an entry below the cursor and writes only between the old
    and the new cursor: every entry of the old block outside that tail is as
    before, and the array comes back with the cursor not moved back, within
    a capacity that has not shrunk and is still within the limit, so that
    the same holds of the next call.  When the call returns Success and no
    limit is set (or the limit does not let the copy run past the record),
    the tail holds the group identifiers of the record in order, all of them
    when no limit is set: a group array with cursor 2 and capacity 2 and a
    record of 5 group identifiers give entries [0,2) as before and the 5
    identifiers in [2,7). *)
Theorem C5_entries_below_cursor_kept (fuel : nat) (env : libc) (ctx : sss_cli_mc_ctx)
    (name : list Z) (name_len group : Z) (buf : result_buffer) (limit : Z)
    (ret : Z) (ctx' : sss_cli_mc_ctx) (buf' : result_buffer) :
  buffer_wf buf ->
  (forall r, lookup_record fuel ctx name name_len = Some r -> members_wf r) ->
  limit <= 0 \/ size buf <= limit ->
  sss_nss_mc_initgroups_dyn fuel env ctx name name_len group buf limit
  = Ret (ret, ctx', buf') ->
  (forall k : nat,
      Z.of_nat k < start buf \/ start buf' <= Z.of_nat k ->
      (k < length (groups buf))%nat ->
      groups buf' !! k = groups buf !! k)
  /\ (0 <= start buf <= start buf'
      /\ start buf' <= size buf'
      /\ size buf' = Z.of_nat (length (groups buf'))
      /\ size buf <= size buf'
      /\ (limit <= 0 \/ size buf' <= limit))
  /\ (ret = Success ->
      forall r vs,
        lookup_record fuel ctx name name_len = Some r ->
        payload ctx r = Ret vs ->
        limit <= 0 \/ limit <= start buf + data_members (rec_initgr r) ->
        start buf' - start buf <= data_members (rec_initgr r)
        /\ (limit <= 0 -> start buf' = start buf + data_members (rec_initgr r))
        /\ forall i : nat,
             start buf + Z.of_nat i < start buf' ->
             groups buf' !! (Z.to_nat (start buf) + i)%nat = vs !! i).
Proof.
  intros Hwf Hmem Hlim Hrun.
  pose proof Hwf as (Hs & Hlen & Hbig).
  apply lookup_outcome in Hrun
    as [(-> & Hret) | (Hctx & r & Hrec & Hparse)].
  - split; [auto|]. split; [repeat split; auto; lia|].
    intros ->. exfalso.
    destruct Hret as [[Hne Heq] | [Heq | (s & err & _ & Heq)]].
    + apply Hne. now rewrite <- Heq.
    + discriminate.
    + discriminate.
  - pose proof (Hmem r Hrec) as Hn.
    pose proof (parse_result_frame env ctx r buf limit ret buf' Hwf Hn Hlim Hparse)
      as (Hframe & Hshape).
    split; [exact Hframe|]. split; [exact Hshape|].
    intros -> r0 vs Hrec0 Hpay Hcut.
    rewrite Hrec in Hrec0. injection Hrec0 as <-.
    exact (parse_result_tail env ctx r buf limit buf' vs Hwf Hn Hlim Hcut Hpay Hparse).
Qed.

Lemma C5_entries_below_cursor_kept_witness :
  let buf := buffer_of 2 [7; 8] in
  let buf' := {| start := 7; size := 7;
                 groups := [7; 8; 2000; 2001; 2002; 2003; 2004] |} in
  (forall k : nat,
      Z.of_nat k < start buf \/ start buf' <= Z.of_nat k ->
      (k < length (groups buf))%nat ->
      groups buf' !! k = groups buf !! k)
  /\ (0 <= start buf <= start buf'
      /\ start buf' <= size buf'
      /\ size buf' = Z.of_nat (length (groups buf'))
      /\ size buf <= size buf'
      /\ (0 <= 0 \/ size buf' <= 0))
  /\ (Success = Success ->
      forall r vs,
        lookup_record 5 ann5_ctx ann 3 = Some r ->
        payload ann5_ctx r = Ret vs ->
        0 <= 0 \/ 0 <= start buf + data_members (rec_initgr r) ->
        start buf' - start buf <= data_members (rec_initgr r)
        /\ (0 <= 0 -> start buf' = start buf + data_members (rec_initgr r))
        /\ forall i : nat,
             start buf + Z.of_nat i < start buf' ->
             groups buf' !! (Z.to_nat (start buf) + i)%nat = vs !! i).
Proof.
  cbv zeta.
  apply (C5_entries_below_cursor_kept 5 fair_libc ann5_ctx ann 3 0
           (buffer_of 2 [7; 8]) 0 Success ann5_ctx
           {| start := 7; size := 7;
              groups := [7; 8; 2000; 2001; 2002; 2003; 2004] |}).
  - unfold buffer_wf. vm_compute. intuition congruence.
  - intros r [= <-]. unfold members_wf. vm_compute. intuition congruence.
  - left. lia.
  - vm_compute. reflexivity.
Defined.

(** ** Memory safety *)

(** The walk stores nothing, and leaves the loop without a record only
    through its condition. *)
Lemma strcmp_eq_no_write (ctx : sss_cli_mc_ctx) (name : list Z) (idx : Z) :
  forall a, strcmp_eq ctx name a <> BadWrite idx.
Proof.
  induction name as [|c name IH]; intros a; simpl; unfold read_byte;
    destruct (_ && _); simpl; try discriminate.
  destruct (c =? 0); [discriminate|].
  destruct (_ =? c); [apply IH | discriminate].
Qed.

Lemma walk_no_write (ctx : sss_cli_mc_ctx) (name : list Z) (name_len hash idx : Z) :
  forall fuel slot prev,
    chain_walk fuel ctx name name_len hash slot prev <> BadWrite idx.
Proof.
  induction fuel as [|fuel IH]; intros slot prev; simpl.
  - destruct (negb _); discriminate.
  - destruct (negb _); [discriminate|].
    destruct (mc_record ctx slot) as [err|r]; [discriminate|].
    destruct (negb (hash =? rec_hash1 r)); [apply IH|].
    destruct (integrity_violation ctx r name_len); [discriminate|].
    destruct (strcmp_eq ctx name _) as [[|]| | |] eqn:Hcmp; simpl;
      try discriminate; [apply IH|].
    apply strcmp_eq_no_write in Hcmp. contradiction.
Qed.

Lemma walk_exit_none (ctx : sss_cli_mc_ctx) (name : list Z) (name_len hash s : Z) :
  forall fuel slot prev,
    chain_walk fuel ctx name name_len hash slot prev = Ret (LoopExit s None) ->
    MC_SLOT_WITHIN_BOUNDS s (dt_size ctx) = false.
Proof.
  induction fuel as [|fuel IH]; intros slot prev; simpl.
  - destruct (negb _) eqn:E; [|discriminate].
    apply negb_true_iff in E. now intros [= <- _].
  - destruct (negb _) eqn:E.
    + apply negb_true_iff in E. now intros [= <- _].
    + destruct (mc_record ctx slot) as [err|r]; [discriminate|].
      destruct (negb (hash =? rec_hash1 r)); [apply IH|].
      destruct (integrity_violation ctx r name_len); [discriminate|].
      destruct (strcmp_eq ctx name _) as [[|]| | |]; simpl; try discriminate.
      apply IH.
Qed.

(** The copy loop stores inside the block when the block has room for the
    entries it is to copy. *)
Lemma copy_gids_no_write (ctx : sss_cli_mc_ctx) (gids idx : Z) :
  forall n i buf,
    (n = 0%nat
     \/ (0 <= start buf
         /\ start buf + Z.of_nat n <= Z.of_nat (length (groups buf))
         /\ Z.of_nat (length (groups buf)) < 2 ^ 62)) ->
    copy_gids ctx gids n i buf <> BadWrite idx.
Proof.
  induction n as [|n IH]; intros i buf Hroom; simpl; [discriminate|].
  destruct Hroom as [|(H0 & H1 & Hbig)]; [discriminate|].
  destruct (SAFEALIGN_COPY_UINT32 ctx _) as [v| | |] eqn:Hrd; simpl;
    try discriminate.
  - unfold store_gid.
    rewrite (proj2 (Z.leb_le _ _) H0).
    rewrite (proj2 (Z.ltb_lt (start buf) _)) by lia. simpl.
    apply IH. right. simpl. rewrite length_insert.
    rewrite long_int_small by machine_lia. lia.
  - unfold SAFEALIGN_COPY_UINT32, read_byte in Hrd.
    repeat (destruct (_ && _); simpl in Hrd; try discriminate).
Qed.

Lemma parse_result_no_write (env : libc) (ctx : sss_cli_mc_ctx) (r : sss_mc_rec)
    (buf : result_buffer) (limit idx : Z) :
  buffer_wf buf ->
  members_wf r ->
  sss_nss_mc_parse_result env ctx r buf limit <> BadWrite idx.
Proof.
  intros (Hs & Hlen & Hbig) Hn. unfold members_wf in Hn.
  unfold sss_nss_mc_parse_result.
  destruct (_ <? time_now env); [discriminate|].
  rewrite long_int_small by machine_lia.
  destruct (_ <? data_members _) eqn:Hsmall.
  - apply Z.ltb_lt in Hsmall.
    destruct (grow_request _ _ _) as [newsize max_ret] eqn:Hreq.
    assert (Hnew : 0 <= newsize < 2 ^ 61
                   /\ (0 < max_ret -> start buf + max_ret <= newsize)).
    { destruct (decide (0 < limit < size buf + data_members (rec_initgr r))).
      - rewrite grow_request_capped in Hreq by (unfold buffer_wf; auto).
        injection Hreq as <- <-. machine_lia.
      - rewrite grow_request_uncapped in Hreq by (unfold buffer_wf; auto).
        injection Hreq as <- <-. machine_lia. }
    destruct Hnew as [Hnew Hroom].
    destruct (realloc_ok env (size_t (newsize * sizeof_gid))) eqn:Hok.
    + rewrite realloc_entries by (assumption || machine_lia).
      set (block := take _ (groups buf) ++ _).
      assert (Hblock : length block = Z.to_nat newsize).
      { subst block. rewrite length_app, length_take, length_map, length_seq. lia. }
      destruct (copy_gids ctx _ _ 0 _) as [buf2| | |] eqn:Hcopy; simpl;
        try discriminate.
      intros [= <-]. revert Hcopy. apply copy_gids_no_write. simpl.
      destruct (decide (0 < max_ret)); [right | left; lia].
      rewrite Hblock. machine_lia.
    + unfold realloc. rewrite Hok. discriminate.
  - apply Z.ltb_ge in Hsmall.
    destruct (copy_gids ctx _ _ 0 buf) as [buf2| | |] eqn:Hcopy; simpl;
      try discriminate.
    intros [= <-]. revert Hcopy. apply copy_gids_no_write.
    right. machine_lia.
Qed.

(** X10.  A call on a well-formed group array never stores outside the
    block, whatever the arena and whatever the hard limit. *)
Theorem no_store_outside_the_block (fuel : nat) (env : libc) (ctx : sss_cli_mc_ctx)
    (name : list Z) (name_len group : Z) (buf : result_buffer) (limit idx : Z) :
  buffer_wf buf ->
  (forall r, lookup_record fuel ctx name name_len = Some r -> members_wf r) ->
  sss_nss_mc_initgroups_dyn fuel env ctx name name_len group buf limit
  <> BadWrite idx.
Proof.
  intros Hwf Hmem.
  destruct (Z.eq_dec (get_ctx_ret ctx) 0) as [Hctx|Hctx].
  - destruct (lookup_record fuel ctx name name_len) as [r|] eqn:Hrec.
    + rewrite (lookup_found _ _ _ _ _ _ _ _ _ Hctx Hrec).
      destruct (sss_nss_mc_parse_result env ctx r buf limit) as [[ret b]| | |]
        eqn:Hp; simpl; try discriminate.
      intros [= <-]. revert Hp. apply parse_result_no_write; auto.
    + rewrite lookup_attached by assumption.
      unfold lookup_body, lookup_record, first_walk in *. cbv zeta.
      rewrite chain_walk_count.
      change (chain_walk fuel ctx name name_len _ _ None)
        with (chain_walk fuel ctx name name_len (name_hash ctx name name_len)
                (first_slot ctx name name_len) None).
      destruct (chain_walk _ _ _ _ _ _ _) as [[ret0|slot [r|]]| | |] eqn:Hw;
        simpl; try discriminate.
      * destruct (MC_SLOT_WITHIN_BOUNDS slot (dt_size ctx)); discriminate.
      * destruct (negb _); discriminate.
      * intros [= <-]. revert Hw. apply walk_no_write.
  - rewrite lookup_failed_attach by assumption. discriminate.
Qed.

Lemma no_store_outside_the_block_witness :
  sss_nss_mc_initgroups_dyn 5 fair_libc ann5_ctx ann 3 0
    (buffer_of 7 [1; 2; 3; 4; 5; 6; 7; 8]) 5
  <> BadWrite 7.
Proof.
  apply (no_store_outside_the_block 5 fair_libc ann5_ctx ann 3 0
           (buffer_of 7 [1; 2; 3; 4; 5; 6; 7; 8]) 5 7).
  - unfold buffer_wf. vm_compute. intuition congruence.
  - intros r [= <-]. unfold members_wf. vm_compute. intuition congruence.
Defined.

(** A byte inside the table is read. *)
Lemma read_byte_inside (ctx : sss_cli_mc_ctx) (a : Z) :
  data_table ctx <= a < max_addr ctx ->
  read_byte ctx a = Ret (dt_byte ctx (a - data_table ctx)).
Proof.
  intros [H0 H1]. unfold read_byte.
  now rewrite (proj2 (Z.leb_le _ _) H0), (proj2 (Z.ltb_lt _ _) H1).
Qed.

(** The comparison reads at most the characters of the query and one more
    byte. *)
Lemma strcmp_eq_inside (ctx : sss_cli_mc_ctx) (name : list Z) :
  forall a,
    data_table ctx <= a ->
    a + Z.of_nat (length name) < max_addr ctx ->
    exists same, strcmp_eq ctx name a = Ret same.
Proof.
  induction name as [|c name IH]; intros a H0 H1; simpl in *.
  - rewrite read_byte_inside by lia. simpl. eauto.
  - rewrite read_byte_inside by lia. simpl.
    destruct (c =? 0); [eauto|].
    destruct (_ =? c); [|eauto].
    apply IH; lia.
Qed.

Lemma walk_no_read_outside (ctx : sss_cli_mc_ctx) (name : list Z)
    (name_len hash a : Z) :
  (forall slot r, mc_record ctx slot = inr r -> record_inside ctx name_len r) ->
  Z.of_nat (length name) <= name_len ->
  forall fuel slot prev,
    chain_walk fuel ctx name name_len hash slot prev <> BadRead a.
Proof.
  intros Hin Hlen.
  induction fuel as [|fuel IH]; intros slot prev; simpl.
  - destruct (negb _); discriminate.
  - destruct (negb _); [discriminate|].
    destruct (mc_record ctx slot) as [err|r] eqn:Hrec; [discriminate|].
    destruct (negb (hash =? rec_hash1 r)); [apply IH|].
    destruct (integrity_violation ctx r name_len); [discriminate|].
    destruct (Hin _ _ Hrec) as (Hname & Hkey & _).
    unfold key_end in Hkey.
    destruct (strcmp_eq_inside ctx name (rec_data r + data_name (rec_initgr r)))
      as [same Hcmp]; [lia | lia |].
    rewrite Hcmp. simpl. destruct same; [discriminate | apply IH].
Qed.

(** The copy loop reads inside the table when the entries it is to copy lie
    inside. *)
Lemma copy_gids_no_read_outside (ctx : sss_cli_mc_ctx) (gids a : Z) :
  forall n i buf,
    data_table ctx <= gids + sizeof_gid * i ->
    gids + sizeof_gid * (i + Z.of_nat n) <= max_addr ctx ->
    copy_gids ctx gids n i buf <> BadRead a.
Proof.
  induction n as [|n IH]; intros i buf H0 H1; simpl; [discriminate|].
  unfold SAFEALIGN_COPY_UINT32.
  unfold sizeof_gid in *.
  rewrite !read_byte_inside by lia. simpl.
  unfold store_gid. destruct (_ && _); simpl; [|discriminate].
  apply IH; lia.
Qed.

(** X11.  The reads this model gives an address are those of the bytes of a
    stored name, made by the comparison, and of the group identifiers, made
    by the copy loop; the fields [hash1], [expire], [data->name] and
    [data->members] are read from the record as the fetch returned it and
    are not covered.  In an arena where the stored name, up to the place of
    its terminator, and the whole array of group identifiers of every record
    lie inside the table, a call on a well-formed group array that is full
    or has no hard limit reads no name byte and no group identifier outside
    the table. *)
Theorem name_and_gid_reads_inside_the_table (fuel : nat) (env : libc) (ctx : sss_cli_mc_ctx)
    (name : list Z) (name_len group : Z) (buf : result_buffer) (limit a : Z) :
  (forall slot r, mc_record ctx slot = inr r -> record_inside ctx name_len r) ->
  Z.of_nat (length name) <= name_len ->
  buffer_wf buf ->
  limit <= 0 \/ start buf = size buf ->
  sss_nss_mc_initgroups_dyn fuel env ctx name name_len group buf limit
  <> BadRead a.
Proof.
  intros Hin Hlen Hwf Hlim.
  destruct (Z.eq_dec (get_ctx_ret ctx) 0) as [Hctx|Hctx];
    [|rewrite lookup_failed_attach by assumption; discriminate].
  rewrite lookup_attached by assumption.
  unfold lookup_body. cbv zeta. rewrite chain_walk_count.
  change (chain_walk fuel ctx name name_len _ _ None)
    with (chain_walk fuel ctx name name_len (name_hash ctx name name_len)
            (first_slot ctx name name_len) None).
  destruct (chain_walk _ _ _ _ _ _ _) as [[ret0|slot [r|]]| | |] eqn:Hw;
    simpl; try discriminate.
  - destruct (negb _) eqn:Hs; simpl; [discriminate|].
    apply negb_false_iff in Hs.
    destruct (walk_exit_match _ _ _ _ _ _ _ _ _ Hw Hs) as (Hrec & _).
    destruct (Hin _ _ Hrec) as (_ & _ & Hgids & Hend & Hn).
    unfold members_wf in Hn. unfold payload_end in *. unfold gids_addr in *.
    pose proof Hwf as (Hstart & Hcap & Hbig).
    rewrite parse_result_count. unfold sss_nss_mc_parse_result.
    destruct (_ <? time_now env); simpl; [discriminate|].
    rewrite long_int_small by machine_lia.
    destruct (_ <? data_members _) eqn:Hsmall.
    + apply Z.ltb_lt in Hsmall.
      destruct (grow_request _ _ _) as [newsize max_ret] eqn:Hreq.
      assert (Hmax : max_ret <= data_members (rec_initgr r)).
      { destruct (decide (0 < limit < size buf + data_members (rec_initgr r))).
        - rewrite grow_request_capped in Hreq by assumption.
          injection Hreq as <- <-. lia.
        - rewrite grow_request_uncapped in Hreq by assumption.
          injection Hreq as <- <-. lia. }
      destruct (realloc _ _ _); simpl; [|discriminate].
      destruct (copy_gids ctx _ _ 0 _) as [b| | |] eqn:Hcopy; simpl;
        try discriminate.
      intros [= <-]. revert Hcopy. apply copy_gids_no_read_outside;
        unfold sizeof_gid in *; lia.
    + destruct (copy_gids ctx _ _ 0 _) as [b| | |] eqn:Hcopy; simpl;
        try discriminate.
      intros [= <-]. revert Hcopy. apply copy_gids_no_read_outside;
        unfold sizeof_gid in *; lia.
  - destruct (negb _) eqn:Hs; simpl; [discriminate|].
    apply negb_false_iff in Hs.
    apply walk_exit_none in Hw. congruence.
  - intros [= <-]. revert Hw. now apply walk_no_read_outside.
Qed.

Lemma name_and_gid_reads_inside_the_table_witness :
  sss_nss_mc_initgroups_dyn 5 fair_libc ann5_ctx ann 3 0 (buffer_of 2 [7; 8]) 5
  <> BadRead 4196.
Proof.
  apply (name_and_gid_reads_inside_the_table 5 fair_libc ann5_ctx ann 3 0
           (buffer_of 2 [7; 8]) 5 4196).
  - intros slot r. simpl.
    destruct (slot =? 0); [|discriminate].
    intros [= <-]. unfold record_inside, members_wf.
    vm_compute. intuition congruence.
  - vm_compute. discriminate.
  - unfold buffer_wf. vm_compute. intuition congruence.
  - right. reflexivity.
Defined.

(** X12.  The statuses of the call: Success, NotFound, Expired and
    AllocationFailure, besides the error of a failed attach and the errno of
    a failed record fetch. *)
Theorem returned_statuses (fuel : nat) (env : libc) (ctx : sss_cli_mc_ctx)
    (name : list Z) (name_len group : Z) (buf : result_buffer) (limit : Z)
    (ret : Z) (ctx' : sss_cli_mc_ctx) (buf' : result_buffer) :
  sss_nss_mc_initgroups_dyn fuel env ctx name name_len group buf limit
  = Ret (ret, ctx', buf') ->
  ret = Success \/ ret = NotFound \/ ret = Expired \/ ret = AllocationFailure
  \/ (get_ctx_ret ctx <> 0 /\ ret = get_ctx_ret ctx)
  \/ (exists slot err, mc_record ctx slot = inl err /\ ret = Z.pos err).
Proof.
  intros Hrun.
  apply lookup_outcome in Hrun
    as [(_ & [Hattach | [Hret | Hfetch]]) | (_ & r & _ & Hparse)]; auto 10.
  apply parse_result_status in Hparse as [(Hret & _) | ([Hret | Hret] & _)];
    auto 10.
Qed.

Lemma returned_statuses_witness :
  (5 = Success \/ 5 = NotFound \/ 5 = Expired \/ 5 = AllocationFailure
   \/ (get_ctx_ret eio_ctx <> 0 /\ 5 = get_ctx_ret eio_ctx)
   \/ (exists slot err, mc_record eio_ctx slot = inl err /\ 5 = Z.pos err)).
Proof.
  apply (returned_statuses 2 fair_libc eio_ctx ann 3 0 (buffer_of 1 [7; 7]) 0
           5 eio_ctx (buffer_of 1 [7; 7])).
  vm_compute. reflexivity.
Defined.

(** ** Instances of the frame and growth lemmas *)

Lemma prefix_preserved_witness :
  [7; 8; 2000; 2001; 2002] !! 1%nat = [7; 8] !! 1%nat.
Proof.
  apply (fun Hwf Hr Hl Hc Hk =>
           prefix_preserved 5 fair_libc ann5_ctx ann 3 0 (buffer_of 2 [7; 8]) 5
             Success ann5_ctx
             {| start := 5; size := 5; groups := [7; 8; 2000; 2001; 2002] |}
             Hwf Hr Hl Hc 1%nat Hk).
  - unfold buffer_wf. vm_compute. intuition congruence.
  - intros r [= <-]. unfold members_wf. vm_compute. intuition congruence.
  - right. vm_compute. discriminate.
  - vm_compute. reflexivity.
  - reflexivity.
Defined.

Lemma growth_uncapped_witness :
  sss_nss_mc_initgroups_dyn 5 fair_libc ann5_ctx ann 3 0 (buffer_of 2 [7; 8]) 0
  = Ret (Success, ann5_ctx,
         {| start := 2 + 5;
            size := 2 + 5;
            groups := take 2 [7; 8] ++ [2000; 2001; 2002; 2003; 2004]
                      ++ drop 7 ([7; 8] ++ map (heap_junk fair_libc) (seq 2 5)) |}).
Proof.
  apply (growth_uncapped 5 fair_libc ann5_ctx ann 3 0 (buffer_of 2 [7; 8]) 0
           ann5_rec [2000; 2001; 2002; 2003; 2004]);
    first [ reflexivity
          | unfold buffer_wf, members_wf; vm_compute; intuition congruence ].
Defined.

Lemma growth_capped_witness :
  sss_nss_mc_initgroups_dyn 5 fair_libc ann5_ctx ann 3 0 (buffer_of 2 [7; 8]) 5
  = Ret (Success, ann5_ctx,
         {| start := 5;
            size := 5;
            groups := take 2 [7; 8] ++ take 3 [2000; 2001; 2002; 2003; 2004] |}).
Proof.
  apply (growth_capped 5 fair_libc ann5_ctx ann 3 0 (buffer_of 2 [7; 8]) 5
           ann5_rec [2000; 2001; 2002; 2003; 2004]);
    first [ reflexivity
          | unfold buffer_wf, members_wf; vm_compute; intuition congruence ].
Defined.

(** * Properties of the IPA provider initialisation *)

Lemma fetch_options_kept (w : world) (st : ipa_state) (o : ipa_options_t) :
  ipa_options st = Some o -> fetch_options w st = st.
Proof. intros Ho. unfold fetch_options. now rewrite Ho. Qed.

Lemma fetch_options_heaps (w : world) (st : ipa_state) :
  id_heap (fetch_options w st) = id_heap st
  /\ krb5_heap (fetch_options w st) = krb5_heap st
  /\ fd_flags (fetch_options w st) = fd_flags st.
Proof. unfold fetch_options. destruct (ipa_options st); auto. Qed.

(** A branch that returns a status tested to differ from EOK does not return
    EOK. *)
Ltac not_eok :=
  let H := fresh in
  intros H; injection H; intros; subst; simpl in *;
  solve [ lia | congruence ].

(** What a call of [sssm_ipa_auth_init] that returns EOK leaves. *)
Lemma auth_init_eok (w : world) (bectx : Z) (st : ipa_state)
    (ops : option bet_ops) (pvt_data : Z)
    (st1 : ipa_state) (ops1 : option bet_ops) (pvt1 : Z) :
  sssm_ipa_auth_init w bectx st ops pvt_data = (EOK, st1, ops1, pvt1) ->
  ops1 = Some ipa_auth_ops
  /\ pvt1 <> 0
  /\ exists o, ipa_options st1 = Some o /\ auth_ctx o = pvt1.
Proof.
  unfold sssm_ipa_auth_init, ENOMEM, EOK.
  destruct (ipa_options (fetch_options w st)) as [o|] eqn:Ho; [|not_eok].
  destruct (auth_ctx o =? 0) eqn:Hauth; simpl.
  - destruct (w_talloc_zero w =? 0) eqn:Hctx; [not_eok|].
    apply Z.eqb_neq in Hctx.
    destruct (w_ipa_get_auth_options w) as [ret1 opts].
    destruct (ret1 =? 0) eqn:H1; simpl; [|not_eok].
    destruct (w_check_and_export_options w =? 0) eqn:H2; simpl; [|not_eok].
    destruct (w_tevent_add_signal w); simpl; [|not_eok].
    destruct (w_debug_to_file w =? 0) eqn:Hdbg; simpl.
    + intros [= <- <- <-]. simpl. eauto.
    + destruct (w_open_debug_file_ex w) as [ret3 filep].
      destruct (ret3 =? 0) eqn:H3; simpl; [|not_eok].
      destruct (w_fileno w =? -1); [not_eok|].
      intros [= <- <- <-]. simpl. eauto.
  - apply Z.eqb_neq in Hauth.
    intros [= <- <- <-]. eauto.
Qed.

(** Once the context exists, a call returns it and changes nothing. *)
Lemma auth_init_again (w : world) (bectx : Z) (st : ipa_state)
    (ops : option bet_ops) (pvt_data : Z) (o : ipa_options_t) :
  ipa_options st = Some o ->
  auth_ctx o <> 0 ->
  sssm_ipa_auth_init w bectx st ops pvt_data
  = (EOK, st, Some ipa_auth_ops, auth_ctx o).
Proof.
  intros Ho Hne. unfold sssm_ipa_auth_init.
  rewrite (fetch_options_kept _ _ _ Ho), Ho.
  now rewrite (proj2 (Z.eqb_neq _ _) Hne).
Qed.

(** X16.  The authentication context is set up once: a call of
    [sssm_ipa_auth_init] that returns EOK hands out [ipa_auth_ops] and the
    non-null context registered in [ipa_options], and every later call of
    [sssm_ipa_auth_init] or [sssm_ipa_chpass_init], whatever its callees
    would yield, returns EOK with that same context and table and changes
    nothing. *)
Theorem auth_context_is_set_up_once (w : world) (bectx : Z) (st : ipa_state)
    (ops : option bet_ops) (pvt_data : Z)
    (st1 : ipa_state) (ops1 : option bet_ops) (pvt1 : Z) :
  sssm_ipa_auth_init w bectx st ops pvt_data = (EOK, st1, ops1, pvt1) ->
  ops1 = Some ipa_auth_ops
  /\ pvt1 <> 0
  /\ (exists o, ipa_options st1 = Some o /\ auth_ctx o = pvt1)
  /\ (forall w2 bectx2 ops2 pvt2,
         sssm_ipa_auth_init w2 bectx2 st1 ops2 pvt2
         = (EOK, st1, Some ipa_auth_ops, pvt1)
         /\ sssm_ipa_chpass_init w2 bectx2 st1 ops2 pvt2
            = (EOK, st1, Some ipa_auth_ops, pvt1)).
Proof.
  intros Hrun.
  destruct (auth_init_eok _ _ _ _ _ _ _ _ Hrun) as (Hops & Hne & o & Ho & Hctx).
  repeat split; try assumption; [now exists o | |];
    unfold sssm_ipa_chpass_init; subst pvt1; now apply auth_init_again.
Qed.

Lemma auth_context_is_set_up_once_witness :
  let st1 := snd (fst (fst (sssm_ipa_auth_init kind_world 1 cold_state None 0))) in
  Some ipa_auth_ops = Some ipa_auth_ops
  /\ 4096 <> 0
  /\ (exists o, ipa_options st1 = Some o /\ auth_ctx o = 4096)
  /\ (forall w2 bectx2 ops2 pvt2,
         sssm_ipa_auth_init w2 bectx2 st1 ops2 pvt2
         = (EOK, st1, Some ipa_auth_ops, 4096)
         /\ sssm_ipa_chpass_init w2 bectx2 st1 ops2 pvt2
            = (EOK, st1, Some ipa_auth_ops, 4096)).
Proof.
  cbv zeta.
  apply (auth_context_is_set_up_once kind_world 1 cold_state None 0).
  reflexivity.
Defined.

(** A store of nothing leaves each cell empty or as it was. *)
Lemma store_none_no_leak {A : Type} (heap : Z -> option A) (p q : Z) :
  store heap p None q = None \/ store heap p None q = heap q.
Proof. unfold store. destruct (q =? p); auto. Qed.

(** X17.  A call of [sssm_ipa_auth_init] that fails leaves nothing behind:
    [*ops] and [*pvt_data] are not written, [ipa_options->auth_ctx] is NULL
    when the options exist, the id context is as before, and no context
    object is left allocated that was not there before. *)
Theorem failed_auth_init_cleans_up (w : world) (bectx : Z) (st : ipa_state)
    (ops : option bet_ops) (pvt_data : Z)
    (ret : Z) (st' : ipa_state) (ops' : option bet_ops) (pvt' : Z) :
  sssm_ipa_auth_init w bectx st ops pvt_data = (ret, st', ops', pvt') ->
  ret <> EOK ->
  ops' = ops
  /\ pvt' = pvt_data
  /\ (forall o', ipa_options st' = Some o' ->
        auth_ctx o' = 0
        /\ forall o, ipa_options (fetch_options w st) = Some o ->
             id_ctx o' = id_ctx o)
  /\ (forall p, krb5_heap st' p = None \/ krb5_heap st' p = krb5_heap st p)
  /\ id_heap st' = id_heap st
  /\ fd_flags st' = fd_flags st.
Proof.
  destruct (fetch_options_heaps w st) as (Hid & Hkrb & Hfd).
  unfold sssm_ipa_auth_init, ENOMEM, EOK.
  destruct (ipa_options (fetch_options w st)) as [o|] eqn:Ho.
  2: { intros [= <- <- <- <-] _. rewrite Ho, Hid, Hkrb, Hfd.
       split; [reflexivity|]. split; [reflexivity|]. split; [|auto].
       intros o' [=]. }
  assert (Hfreed : forall r,
             (r, {| ipa_options := Some {| id_ctx := id_ctx o; auth_ctx := 0 |};
                    id_heap := id_heap (fetch_options w st);
                    krb5_heap := store (krb5_heap (fetch_options w st))
                                   (w_talloc_zero w) None;
                    fd_flags := fd_flags (fetch_options w st) |}, ops, pvt_data)
             = (ret, st', ops', pvt') ->
             ops' = ops /\ pvt' = pvt_data
             /\ (forall o', ipa_options st' = Some o' ->
                   auth_ctx o' = 0
                   /\ forall o0, Some o = Some o0 -> id_ctx o' = id_ctx o0)
             /\ (forall p, krb5_heap st' p = None \/ krb5_heap st' p = krb5_heap st p)
             /\ id_heap st' = id_heap st
             /\ fd_flags st' = fd_flags st).
  { intros r [= _ <- <- <-]. simpl. rewrite Hid, Hkrb, Hfd.
    split; [reflexivity|]. split; [reflexivity|]. split; [|split; [|auto]].
    - intros o' [= <-]. split; [reflexivity|]. now intros o0 [= <-].
    - intros p. apply store_none_no_leak. }
  destruct (auth_ctx o =? 0) eqn:Hauth; simpl.
  - destruct (w_talloc_zero w =? 0) eqn:Hctx.
    { intros [= <- <- <- <-] _. rewrite Ho, Hid, Hkrb, Hfd.
      apply Z.eqb_eq in Hauth.
      split; [reflexivity|]. split; [reflexivity|]. split; [|auto].
      intros o' [= <-]. split; [assumption|]. now intros o0 [= <-]. }
    destruct (w_ipa_get_auth_options w) as [ret1 opts].
    destruct (ret1 =? 0) eqn:H1; simpl; [|intros E _; now apply (Hfreed ret1)].
    destruct (w_check_and_export_options w =? 0) eqn:H2; simpl;
      [|intros E _; now apply (Hfreed (w_check_and_export_options w))].
    destruct (w_tevent_add_signal w); simpl;
      [|intros E _; now apply (Hfreed 12)].
    destruct (w_debug_to_file w =? 0) eqn:Hdbg; simpl.
    + intros [= <- _ _ _] Hne. contradiction.
    + destruct (w_open_debug_file_ex w) as [ret3 filep].
      destruct (ret3 =? 0) eqn:H3; simpl; [|intros E _; now apply (Hfreed ret3)].
      destruct (w_fileno w =? -1);
        [intros E _; now apply (Hfreed (Z.pos (w_errno w)))|].
      intros [= <- _ _ _] Hne. contradiction.
  - intros [= <- _ _ _] Hne. contradiction.
Qed.

Lemma failed_auth_init_cleans_up_witness :
  let st' := snd (fst (fst (sssm_ipa_auth_init sour_world 1 cold_state None 0))) in
  @None bet_ops = None
  /\ 0 = 0
  /\ (forall o', ipa_options st' = Some o' ->
        auth_ctx o' = 0
        /\ forall o, ipa_options (fetch_options sour_world cold_state) = Some o ->
             id_ctx o' = id_ctx o)
  /\ (forall p, krb5_heap st' p = None \/ krb5_heap st' p = krb5_heap cold_state p)
  /\ id_heap st' = id_heap cold_state
  /\ fd_flags st' = fd_flags cold_state.
Proof.
  cbv zeta.
  apply (failed_auth_init_cleans_up sour_world 1 cold_state None 0 5).
  - reflexivity.
  - discriminate.
Defined.

(** X18.  The outcome of [sssm_ipa_init].  On EOK it hands out [ipa_id_ops]
    and the context it has just allocated, which is non-null, is registered
    as [ipa_options->id_ctx] and records the back end and the options read
    for it.  On any other status [*ops] and [*pvt_data] are not written and
    no context object is left allocated that was not there before. *)
Theorem id_init_outcome (w : world) (bectx : Z) (st : ipa_state)
    (ops : option bet_ops) (pvt_data : Z)
    (ret : Z) (st' : ipa_state) (ops' : option bet_ops) (pvt' : Z) :
  sssm_ipa_init w bectx st ops pvt_data = (ret, st', ops', pvt') ->
  (ret = EOK ->
   ops' = Some ipa_id_ops
   /\ pvt' = w_talloc_zero w
   /\ pvt' <> 0
   /\ (exists o, ipa_options st' = Some o /\ id_ctx o = pvt')
   /\ id_heap st' pvt'
      = Some {| id_be := bectx; id_opts := snd (w_ipa_get_id_options w) |})
  /\ (ret <> EOK ->
      ops' = ops
      /\ pvt' = pvt_data
      /\ forall p, id_heap st' p = None \/ id_heap st' p = id_heap st p).
Proof.
  destruct (fetch_options_heaps w st) as (Hid & Hkrb & Hfd).
  unfold sssm_ipa_init, ENOMEM, EOK.
  destruct (ipa_options (fetch_options w st)) as [o|] eqn:Ho.
  2: { intros [= <- <- <- <-]. split; [discriminate|].
       intros _. rewrite Hid. auto. }
  destruct (w_talloc_zero w =? 0) eqn:Hctx.
  { intros [= <- <- <- <-]. split; [discriminate|].
    intros _. rewrite Hid. auto. }
  apply Z.eqb_neq in Hctx.
  destruct (w_ipa_get_id_options w) as [ret1 opts]. simpl snd.
  assert (Hfreed : forall r, r <> 0 ->
             (r, {| ipa_options := Some {| id_ctx := 0; auth_ctx := auth_ctx o |};
                    id_heap := store (id_heap (fetch_options w st))
                                 (w_talloc_zero w) None;
                    krb5_heap := krb5_heap (fetch_options w st);
                    fd_flags := fd_flags (fetch_options w st) |}, ops, pvt_data)
             = (ret, st', ops', pvt') ->
             (ret = 0 -> ops' = Some ipa_id_ops
                         /\ pvt' = w_talloc_zero w
                         /\ pvt' <> 0
                         /\ (exists o0, ipa_options st' = Some o0 /\ id_ctx o0 = pvt')
                         /\ id_heap st' pvt'
                            = Some {| id_be := bectx; id_opts := opts |})
             /\ (ret <> 0 -> ops' = ops /\ pvt' = pvt_data
                             /\ forall p, id_heap st' p = None
                                          \/ id_heap st' p = id_heap st p)).
  { intros r Hr [= <- <- <- <-]. split; [contradiction|].
    intros _. simpl. rewrite Hid. repeat split.
    intros p. apply store_none_no_leak. }
  destruct (ret1 =? 0) eqn:H1; simpl;
    [|apply Hfreed; now apply Z.eqb_neq].
  destruct (w_setup_tls_config w =? 0) eqn:H2; simpl;
    [|apply Hfreed; now apply Z.eqb_neq].
  destruct (w_sdap_id_setup_tasks w =? 0) eqn:H3; simpl;
    [|apply Hfreed; now apply Z.eqb_neq].
  intros [= <- <- <- <-]. split; [|contradiction].
  intros _. simpl. repeat split; try assumption.
  - eexists. split; reflexivity.
  - unfold store. now rewrite Z.eqb_refl.
Qed.

Lemma id_init_outcome_witness :
  let st' := snd (fst (fst (sssm_ipa_init kind_world 1 cold_state None 0))) in
  (EOK = EOK ->
   Some ipa_id_ops = Some ipa_id_ops
   /\ 4096 = w_talloc_zero kind_world
   /\ 4096 <> 0
   /\ (exists o, ipa_options st' = Some o /\ id_ctx o = 4096)
   /\ id_heap st' 4096
      = Some {| id_be := 1; id_opts := snd (w_ipa_get_id_options kind_world) |})
  /\ (EOK <> EOK ->
      Some ipa_id_ops = None
      /\ 4096 = 0
      /\ forall p, id_heap st' p = None \/ id_heap st' p = id_heap cold_state p).
Proof.
  cbv zeta.
  apply (id_init_outcome kind_world 1 cold_state None 0).
  reflexivity.
Defined.

(** X19.  [sssm_ipa_init] has no test for a context that already exists: on a
    provider whose id context is set up, a call that allocates its context
    and then fails leaves [ipa_options->id_ctx] NULL, while the earlier
    context object stays allocated and the authentication context is not
    touched. *)
Theorem failed_id_reinit_drops_the_context (w : world) (bectx : Z)
    (st : ipa_state) (ops : option bet_ops) (pvt_data : Z) (o : ipa_options_t)
    (ret : Z) (st' : ipa_state) (ops' : option bet_ops) (pvt' : Z) :
  ipa_options st = Some o ->
  id_ctx o <> 0 ->
  w_talloc_zero w <> 0 ->
  w_talloc_zero w <> id_ctx o ->
  sssm_ipa_init w bectx st ops pvt_data = (ret, st', ops', pvt') ->
  ret <> EOK ->
  ipa_options st' = Some {| id_ctx := 0; auth_ctx := auth_ctx o |}
  /\ id_heap st' (id_ctx o) = id_heap st (id_ctx o)
  /\ krb5_heap st' = krb5_heap st.
Proof.
  intros Ho Hold Hnew Hfresh.
  unfold sssm_ipa_init, EOK.
  rewrite (fetch_options_kept _ _ _ Ho), Ho.
  rewrite (proj2 (Z.eqb_neq _ _) Hnew).
  assert (Hother : store (id_heap st) (w_talloc_zero w) None (id_ctx o)
                   = id_heap st (id_ctx o)).
  { unfold store. destruct (id_ctx o =? w_talloc_zero w) eqn:E; [|reflexivity].
    apply Z.eqb_eq in E. congruence. }
  destruct (w_ipa_get_id_options w) as [ret1 opts].
  destruct (ret1 =? 0); simpl; [|intros [= <- <- <- <-] _; simpl; auto].
  destruct (w_setup_tls_config w =? 0); simpl;
    [|intros [= <- <- <- <-] _; simpl; auto].
  destruct (w_sdap_id_setup_tasks w =? 0); simpl;
    [|intros [= <- <- <- <-] _; simpl; auto].
  intros [= <- _ _ _] Hne. contradiction.
Qed.

Lemma failed_id_reinit_drops_the_context_witness :
  let st := snd (fst (fst (sssm_ipa_init kind_world 1 cold_state None 0))) in
  let st' := snd (fst (fst (sssm_ipa_init sour_world 1 st None 0))) in
  ipa_options st' = Some {| id_ctx := 0; auth_ctx := 0 |}
  /\ id_heap st' 4096 = id_heap st 4096
  /\ krb5_heap st' = krb5_heap st.
Proof.
  cbv zeta.
  apply (failed_id_reinit_drops_the_context sour_world 1
           (snd (fst (fst (sssm_ipa_init kind_world 1 cold_state None 0))))
           None 0 {| id_ctx := 4096; auth_ctx := 0 |} 5 _ None 0);
    first [reflexivity | discriminate].
Defined.

(** The mask of lines 172-173 clears bit 0 and keeps every other bit of a
    32-bit flag word. *)
Lemma cloexec_mask_bits (v k : Z) :
  0 <= v < 2 ^ 32 ->
  0 <= k ->
  Z.testbit (Z.land (unsigned v) (unsigned (Z.lnot FD_CLOEXEC))) k
  = if k =? 0 then false else Z.testbit v k.
Proof.
  intros Hv Hk. unfold unsigned, FD_CLOEXEC.
  rewrite Z.land_spec.
  rewrite (Z.mod_small v) by assumption.
  destruct (Z.ltb_spec k 32) as [Hlow|Hhigh].
  - rewrite Z.mod_pow2_bits_low by lia.
    rewrite Z.lnot_spec by assumption.
    destruct (Z.eqb_spec k 0) as [->|Hk0].
    + now rewrite andb_false_r.
    + replace (Z.testbit 1 k) with false; [now rewrite andb_true_r|].
      symmetry. apply Z.bits_above_log2; simpl; lia.
  - rewrite Z.mod_pow2_bits_high by lia.
    rewrite andb_false_r.
    destruct (Z.eqb_spec k 0) as [->|Hk0]; [reflexivity|].
    symmetry. rewrite <- (Z.mod_small v (2 ^ 32)) by assumption.
    apply Z.mod_pow2_bits_high. lia.
Qed.

(** X20.  When [sssm_ipa_auth_init] sets up a new context with logging to a
    file, the descriptor of the child's debug file is recorded in the
    context and loses its close-on-exec flag: bit 0 of its flags is cleared,
    every other bit is kept, and no other descriptor is touched. *)
Theorem debug_descriptor_survives_exec (w : world) (bectx : Z) (st : ipa_state)
    (ops : option bet_ops) (pvt_data : Z)
    (st' : ipa_state) (ops' : option bet_ops) (pvt' : Z) :
  (forall o, ipa_options (fetch_options w st) = Some o -> auth_ctx o = 0) ->
  w_debug_to_file w <> 0 ->
  0 <= fd_flags st (w_fileno w) < 2 ^ 32 ->
  sssm_ipa_auth_init w bectx st ops pvt_data = (EOK, st', ops', pvt') ->
  Z.testbit (fd_flags st' (w_fileno w)) 0 = false
  /\ (forall k, 0 < k ->
        Z.testbit (fd_flags st' (w_fileno w)) k
        = Z.testbit (fd_flags st (w_fileno w)) k)
  /\ (forall d, d <> w_fileno w -> fd_flags st' d = fd_flags st d)
  /\ (exists c, krb5_heap st' pvt' = Some c /\ child_debug_fd c = w_fileno w).
Proof.
  intros Hnew Hdbg Hflags.
  destruct (fetch_options_heaps w st) as (_ & _ & Hfd).
  unfold sssm_ipa_auth_init, ENOMEM, EOK.
  destruct (ipa_options (fetch_options w st)) as [o|] eqn:Ho; [|not_eok].
  rewrite (Hnew o eq_refl). simpl.
  destruct (w_talloc_zero w =? 0) eqn:Hctx; [not_eok|].
  destruct (w_ipa_get_auth_options w) as [ret1 opts].
  destruct (ret1 =? 0) eqn:H1; simpl; [|not_eok].
  destruct (w_check_and_export_options w =? 0) eqn:H2; simpl; [|not_eok].
  destruct (w_tevent_add_signal w); simpl; [|not_eok].
  rewrite (proj2 (Z.eqb_neq _ _) Hdbg). simpl.
  destruct (w_open_debug_file_ex w) as [ret3 filep].
  destruct (ret3 =? 0) eqn:H3; simpl; [|not_eok].
  destruct (w_fileno w =? -1); [not_eok|].
  intros [= <- <- <-]. simpl. rewrite Hfd.
  unfold set_flags, store. rewrite !Z.eqb_refl.
  split; [rewrite <- Z.bit0_odd; now rewrite cloexec_mask_bits by lia|].
  split; [|split].
  - intros k Hk. rewrite cloexec_mask_bits by lia.
    now rewrite (proj2 (Z.eqb_neq k 0)) by lia.
  - intros d Hd. now rewrite (proj2 (Z.eqb_neq _ _) Hd).
  - eexists. split; reflexivity.
Qed.

Lemma debug_descriptor_survives_exec_witness :
  let st' := snd (fst (fst (sssm_ipa_auth_init kind_world 1 cold_state None 0))) in
  Z.testbit (fd_flags st' (w_fileno kind_world)) 0 = false
  /\ (forall k, 0 < k ->
        Z.testbit (fd_flags st' (w_fileno kind_world)) k
        = Z.testbit (fd_flags cold_state (w_fileno kind_world)) k)
  /\ (forall d, d <> w_fileno kind_world -> fd_flags st' d = fd_flags cold_state d)
  /\ (exists c, krb5_heap st' 4096 = Some c
                /\ child_debug_fd c = w_fileno kind_world).
Proof.
  cbv zeta.
  apply (debug_descriptor_survives_exec kind_world 1 cold_state None 0 _
           (Some ipa_auth_ops) 4096).
  - intros o [= <-]. reflexivity.
  - discriminate.
  - vm_compute. intuition congruence.
  - reflexivity.
Defined.

(** ** The option loop of the continuous-integration driver *)

Lemma word_in_inv (w : String.string) (patterns : list String.string) :
  word_in w patterns = true -> In w patterns.
Proof.
  unfold word_in. rewrite existsb_exists.
  intros (p & Hp & Heq). apply String.eqb_eq in Heq. now subst.
Qed.

(** What holds of the options before the loop and is kept by every option
    holds of the options the loop is left with. *)
Lemma option_loop_invariant (P : ci_options -> Prop) :
  (forall o v, P o -> P (set_prefix o v)) ->
  (forall o, P o -> P (set_no_deps o)) ->
  (forall o, P o -> P (set_mode o false false)) ->
  (forall o, P o -> P (set_mode o true false)) ->
  (forall o, P o -> P (set_mode o true true)) ->
  forall args o o' rest,
    P o -> option_loop args o = LoopDone o' rest -> P o'.
Proof.
  intros Hp Hn He Hm Hr args.
  assert (H : forall n args, (length args <= n)%nat ->
            forall o o' rest,
              P o -> option_loop args o = LoopDone o' rest -> P o').
  { clear args. induction n as [|n IH]; intros args Hlen o o' rest HP.
    - destruct args; [discriminate|simpl in Hlen; lia].
    - destruct args as [|w args]; [discriminate|].
      simpl in Hlen. cbn [option_loop].
      destruct (word_in w _); [discriminate|].
      destruct (word_in w _).
      { destruct args as [|v args]; [discriminate|].
        simpl in Hlen. apply IH; [lia|auto]. }
      destruct (word_in w _); [apply IH; [lia|auto]|].
      destruct (word_in w _); [apply IH; [lia|auto]|].
      destruct (word_in w _); [apply IH; [lia|auto]|].
      destruct (word_in w _); [apply IH; [lia|auto]|].
      destruct (word_in w _); [|discriminate].
      intros [= <- <-]. exact HP. }
  exact (H (length args) args (le_n _)).
Qed.

(** The words the loop consumes end with the double dash it is left at. *)
Lemma option_loop_done (args : list String.string) :
  forall o o' rest,
    option_loop args o = LoopDone o' rest ->
    exists opts, args = opts ++ "--"%string :: rest.
Proof.
  assert (H : forall n args, (length args <= n)%nat ->
            forall o o' rest,
              option_loop args o = LoopDone o' rest ->
              exists opts, args = opts ++ "--"%string :: rest).
  { induction n as [|n IH]; intros args' Hlen o o' rest.
    - destruct args'; [discriminate|simpl in Hlen; lia].
    - destruct args' as [|w args']; [discriminate|].
      simpl in Hlen. cbn [option_loop].
      destruct (word_in w _); [discriminate|].
      destruct (word_in w _).
      { destruct args' as [|v args']; [discriminate|].
        simpl in Hlen. intros Hd.
        destruct (IH args' ltac:(lia) _ _ _ Hd) as [opts ->].
        now exists (w :: v :: opts). }
      assert (Hstep : forall o1, option_loop args' o1 = LoopDone o' rest ->
                exists opts, w :: args' = opts ++ "--"%string :: rest).
      { intros o1 Hd.
        destruct (IH args' ltac:(lia) _ _ _ Hd) as [opts ->].
        now exists (w :: opts). }
      destruct (word_in w _); [apply Hstep|].
      destruct (word_in w _); [apply Hstep|].
      destruct (word_in w _); [apply Hstep|].
      destruct (word_in w _); [apply Hstep|].
      destruct (word_in w _) eqn:Hdd; [|discriminate].
      intros [= <- <-]. apply word_in_inv in Hdd.
      destruct Hdd as [<-|[]]. now exists []. }
  intros o o' rest. exact (H (length args) args (le_n _) o o' rest).
Qed.

(** X21 (contrib/ci/run, main routine): whatever the command line, the
    stages never run with RIGOROUS set and MODERATE unset: the coverage
    build is always accompanied by the moderate checks of the debug build. *)
Theorem rigorous_implies_moderate (args : list String.string) (o : ci_options) :
  ci_command_line args = Some (inr o) ->
  RIGOROUS o = true -> MODERATE o = true.
Proof.
  unfold ci_command_line.
  destruct (option_loop args ci_defaults) as [s| |o' rest] eqn:Hl;
    [discriminate|discriminate|].
  destruct rest; [|discriminate]. intros [= <-].
  revert Hl.
  apply (option_loop_invariant (fun o => RIGOROUS o = true -> MODERATE o = true));
    simpl; auto; discriminate.
Qed.

Lemma rigorous_implies_moderate_witness :
  MODERATE (set_mode (set_no_deps ci_defaults) true true) = true.
Proof.
  apply (rigorous_implies_moderate ["-n"; "-m"; "--full"; "--"]%string).
  - reflexivity.
  - reflexivity.
Defined.

(** Words behind the double dash do not change how the loop ends: they are
    handed on with the rest. *)
Lemma option_loop_extra (extra : list String.string) :
  forall args o o' rest,
    option_loop args o = LoopDone o' rest ->
    option_loop (args ++ extra) o = LoopDone o' (rest ++ extra).
Proof.
  assert (H : forall n args, (length args <= n)%nat ->
            forall o o' rest,
              option_loop args o = LoopDone o' rest ->
              option_loop (args ++ extra) o = LoopDone o' (rest ++ extra)).
  { induction n as [|n IH]; intros args Hlen o o' rest.
    - destruct args; [discriminate|simpl in Hlen; lia].
    - destruct args as [|w args]; [discriminate|].
      simpl in Hlen. rewrite <- app_comm_cons. cbn [option_loop].
      destruct (word_in w _); [discriminate|].
      destruct (word_in w _).
      { destruct args as [|v args]; [discriminate|].
        simpl in Hlen. rewrite <- app_comm_cons. apply IH. lia. }
      destruct (word_in w _); [apply IH; lia|].
      destruct (word_in w _); [apply IH; lia|].
      destruct (word_in w _); [apply IH; lia|].
      destruct (word_in w _); [apply IH; lia|].
      destruct (word_in w _); [|discriminate].
      now intros [= <- <-]. }
  intros args. exact (H (length args) args (le_n _)).
Qed.

(** The loop works from left to right: after the options of an accepted
    command line it goes on with the words that follow, from the options
    set so far. *)
Lemma option_loop_prefix (suffix : list String.string) :
  forall pre o o1,
    option_loop (pre ++ ["--"%string]) o = LoopDone o1 [] ->
    option_loop (pre ++ suffix) o = option_loop suffix o1.
Proof.
  assert (H : forall n pre, (length pre <= n)%nat ->
            forall o o1,
              option_loop (pre ++ ["--"%string]) o = LoopDone o1 [] ->
              option_loop (pre ++ suffix) o = option_loop suffix o1).
  { induction n as [|n IH]; intros pre Hlen o o1.
    - destruct pre; [|simpl in Hlen; lia].
      simpl. now intros [= <-].
    - destruct pre as [|w pre]; [simpl; now intros [= <-]|].
      simpl in Hlen. rewrite <- !app_comm_cons. cbn [option_loop].
      destruct (word_in w _); [discriminate|].
      destruct (word_in w _).
      { destruct pre as [|v pre]; [discriminate|].
        simpl in Hlen. rewrite <- !app_comm_cons. apply IH. lia. }
      destruct (word_in w _); [apply IH; lia|].
      destruct (word_in w _); [apply IH; lia|].
      destruct (word_in w _); [apply IH; lia|].
      destruct (word_in w _); [apply IH; lia|].
      destruct (word_in w _); [|discriminate].
      intros [= _ Hnil]. now destruct pre. }
  intros pre. exact (H (length pre) pre (le_n _)).
Qed.

Lemma option_loop_mode (m : String.string) (a b : bool)
    (rest : list String.string) (o : ci_options) :
  mode_of m = Some (a, b) ->
  option_loop (m :: rest) o = option_loop rest (set_mode o a b).
Proof.
  unfold mode_of.
  destruct (word_in m ["-e"; "--essential"]%string) eqn:He.
  { intros [= <- <-]. apply word_in_inv in He.
    destruct He as [<-|[<-|[]]]; reflexivity. }
  destruct (word_in m ["-m"; "--moderate"]%string) eqn:Hm.
  { intros [= <- <-]. apply word_in_inv in Hm.
    destruct Hm as [<-|[<-|[]]]; reflexivity. }
  destruct (word_in m ["-r"; "--rigorous"; "-f"; "--full"]%string) eqn:Hr;
    [|discriminate].
  intros [= <- <-]. apply word_in_inv in Hr.
  destruct Hr as [<-|[<-|[<-|[<-|[]]]]]; reflexivity.
Qed.

Lemma command_line_accepted (args : list String.string) (o : ci_options) :
  ci_command_line args = Some (inr o) ->
  option_loop args ci_defaults = LoopDone o [].
Proof.
  unfold ci_command_line.
  destruct (option_loop args ci_defaults) as [s| |o' rest];
    [discriminate|discriminate|].
  destruct rest; [|discriminate]. now intros [= <-].
Qed.

(** X22 (contrib/ci/run, main routine): a command line the stages are run
    for ends with the double dash and has nothing behind it, and with any
    word added behind it the script exits with status 1: positional
    arguments are never accepted. *)
Theorem accepted_command_line_shape (args : list String.string) (o : ci_options) :
  ci_command_line args = Some (inr o) ->
  (exists opts, args = opts ++ ["--"%string])
  /\ forall extra, extra <> [] ->
       ci_command_line (args ++ extra) = Some (inl 1).
Proof.
  intros Hc. apply command_line_accepted in Hc. split.
  - exact (option_loop_done args _ _ _ Hc).
  - intros extra Hne. unfold ci_command_line.
    rewrite (option_loop_extra extra _ _ _ _ Hc). simpl.
    now destruct extra.
Qed.

Lemma accepted_command_line_shape_witness :
  (exists opts, ["-p"; "out/"; "-e"; "--"]%string = opts ++ ["--"%string])
  /\ forall extra, extra <> [] ->
       ci_command_line (["-p"; "out/"; "-e"; "--"]%string ++ extra) = Some (inl 1).
Proof.
  apply (accepted_command_line_shape ["-p"; "out/"; "-e"; "--"]%string
           (set_mode (set_prefix ci_defaults "out/"%string) false false)).
  reflexivity.
Defined.

(** X23 (contrib/ci/run, main routine): options are applied from left to
    right and a later one overrides: an option added at the end of an
    accepted command line gives the options of that command line with the
    mode, the prefix or the dependency switch replaced, and nothing else
    changed. *)
Theorem trailing_option_overrides (pre : list String.string) (o1 : ci_options) :
  ci_command_line (pre ++ ["--"%string]) = Some (inr o1) ->
  (forall m a b, mode_of m = Some (a, b) ->
     ci_command_line (pre ++ [m; "--"%string]) = Some (inr (set_mode o1 a b)))
  /\ (forall v,
        ci_command_line (pre ++ ["-p"%string; v; "--"%string])
        = Some (inr (set_prefix o1 v)))
  /\ ci_command_line (pre ++ ["-n"; "--"]%string) = Some (inr (set_no_deps o1)).
Proof.
  intros Hc. apply command_line_accepted in Hc.
  split; [|split].
  - intros m a b Hm. unfold ci_command_line.
    rewrite (option_loop_prefix _ _ _ _ Hc).
    now rewrite (option_loop_mode m a b _ _ Hm).
  - intros v. unfold ci_command_line.
    now rewrite (option_loop_prefix _ _ _ _ Hc).
  - unfold ci_command_line.
    now rewrite (option_loop_prefix _ _ _ _ Hc).
Qed.

Lemma trailing_option_overrides_witness :
  let o1 := set_mode (set_no_deps ci_defaults) true true in
  (forall m a b, mode_of m = Some (a, b) ->
     ci_command_line (["-n"; "--full"]%string ++ [m; "--"%string])
     = Some (inr (set_mode o1 a b)))
  /\ (forall v,
        ci_command_line (["-n"; "--full"]%string ++ ["-p"%string; v; "--"%string])
        = Some (inr (set_prefix o1 v)))
  /\ ci_command_line (["-n"; "--full"]%string ++ ["-n"; "--"]%string)
     = Some (inr (set_no_deps o1)).
Proof.
  cbv zeta.
  apply (trailing_option_overrides ["-n"; "--full"]%string).
  reflexivity.
Defined.

(** X24 (contrib/ci/run, main routine): the switch that turns the
    installation of dependencies off cannot be undone: once it has been
    read as an option, no later word of an accepted command line turns the
    installation on again. *)
Theorem no_deps_is_final (pre post : list String.string) (o1 o2 : ci_options) :
  ci_command_line (pre ++ ["--"%string]) = Some (inr o1) ->
  ci_command_line (pre ++ "-n"%string :: post) = Some (inr o2) ->
  DEPS o2 = false.
Proof.
  intros H1 H2.
  apply command_line_accepted in H1. apply command_line_accepted in H2.
  rewrite (option_loop_prefix _ _ _ _ H1) in H2.
  change (option_loop ("-n"%string :: post) o1)
    with (option_loop post (set_no_deps o1)) in H2.
  revert H2.
  apply (option_loop_invariant (fun o => DEPS o = false)); auto.
Qed.

Lemma no_deps_is_final_witness :
  DEPS (set_prefix (set_mode (set_no_deps (set_mode ci_defaults true false))
                      true true) "x"%string) = false.
Proof.
  apply (no_deps_is_final ["-m"]%string ["-r"; "-p"; "x"; "--"]%string
           (set_mode ci_defaults true false)).
  - reflexivity.
  - reflexivity.
Defined.

(** ** Display paths and durations *)

Lemma string_from_append (a rest : String.string) :
  string_from (String.length a) (String.append a rest) = rest.
Proof. induction a as [|c a IH]; simpl; [now destruct rest|exact IH]. Qed.

Lemma string_from_add (n m : nat) (s : String.string) :
  string_from (n + m) s = string_from m (string_from n s).
Proof.
  revert s. induction n as [|n IH]; intros s; simpl; [reflexivity|].
  destruct s; [now destruct m|apply IH].
Qed.

Lemma string_from_past (n : nat) (s : String.string) :
  (String.length s <= n)%nat -> string_from n s = String.EmptyString.
Proof.
  revert s. induction n as [|n IH]; intros s Hn.
  - destruct s; [reflexivity|simpl in Hn; lia].
  - destruct s; [reflexivity|]. simpl in *. apply IH. lia.
Qed.

(** X25 (contrib/ci/run, disppath): a path below the base directory is
    relocated to the prefix: the base directory and the one character
    behind it are replaced by the prefix and the rest of the path is kept
    as it is; a path not longer than the base directory gives the prefix
    alone. *)
Theorem disppath_relocates (base_pfx base_dir : String.string) :
  (forall c rel,
     disppath base_pfx base_dir (String.append base_dir (String.String c rel))
     = String.append base_pfx rel)
  /\ (forall path,
        (String.length path <= String.length base_dir)%nat ->
        disppath base_pfx base_dir path = String.append base_pfx String.EmptyString).
Proof.
  unfold disppath. split.
  - intros c rel. now rewrite string_from_add, string_from_append.
  - intros path Hlen. rewrite string_from_past by lia. reflexivity.
Qed.

(** X26 (contrib/ci/run, stage): for a duration that is not negative the
    three fields printed are hours, minutes below 60 and seconds below 60,
    and they add up to the duration. *)
Theorem duration_fields_recompose (duration : Z) :
  0 <= duration < 2 ^ 63 ->
  let '(h, m, s) := duration_fields duration in
  duration = h * 3600 + m * 60 + s
  /\ 0 <= h /\ 0 <= m < 60 /\ 0 <= s < 60.
Proof.
  intros Hd. unfold duration_fields, shell_div, shell_rem.
  change (long_int (60 * 60)) with 3600.
  rewrite !Z.quot_div_nonneg by lia.
  assert (H60 : 0 <= duration / 60 <= duration).
  { split; [apply Z.div_pos; lia|].
    apply Z.div_le_upper_bound; lia. }
  assert (H3600 : 0 <= duration / 3600 <= duration).
  { split; [apply Z.div_pos; lia|].
    apply Z.div_le_upper_bound; lia. }
  rewrite (long_int_small (duration / 3600)) by machine_lia.
  rewrite (long_int_small (duration / 60)) by machine_lia.
  rewrite !Z.rem_mod_nonneg by lia.
  pose proof (Z.mod_pos_bound duration 60 ltac:(lia)) as Hs.
  pose proof (Z.mod_pos_bound (duration / 60) 60 ltac:(lia)) as Hm.
  rewrite (long_int_small (duration mod 60)) by machine_lia.
  rewrite (long_int_small ((duration / 60) mod 60)) by machine_lia.
  assert (Hq : duration / 3600 = duration / 60 / 60).
  { now rewrite Z.div_div by lia. }
  pose proof (Z.div_mod duration 60 ltac:(lia)) as E1.
  pose proof (Z.div_mod (duration / 60) 60 ltac:(lia)) as E2.
  rewrite Hq. repeat split; try lia.
Qed.

Lemma duration_fields_recompose_witness :
  3725 = 1 * 3600 + 2 * 60 + 5 /\ 0 <= 1 /\ 0 <= 2 < 60 /\ 0 <= 5 < 60.
Proof.
  apply (duration_fields_recompose 3725). machine_lia.
Defined.
